(** * mpp_impl: the POSIX process engine of Mozart++ (src/process_unix.cpp)

    A shallow embedding of the child launcher, the executable resolver, the
    image replacement adapter, the descriptor sweeper and the process
    supervisor, together with the properties the specification states
    about them.

    Conventions.  C [int] values are [Z]; descriptors are [Z] as well
    ([fd_type] is [int]); a C string is a [string] without NUL; a
    [char **] vector is a list of slots, a slot holding [None] for
    [nullptr].  Calls into the operating system are answered by explicit
    oracles, so that every function below is a total, executable
    function of the OS answers it receives. *)

From Stdlib Require Import ZArith Lia Bool Ascii String.
From stdpp Require Import base numbers list strings pretty gmap sets.

#[local] Open Scope Z_scope.

(** ** <cerrno>: the error numbers the engine inspects (Linux numbering) *)

Definition ENOENT : Z := 2.
Definition EINTR : Z := 4.
Definition ENOEXEC : Z := 8.
Definition EBADF : Z := 9.
Definition ECHILD : Z := 10.
Definition EACCES : Z := 13.
Definition ENODEV : Z := 19.
Definition ENOTDIR : Z := 20.
Definition ENAMETOOLONG : Z := 36.
Definition ELOOP : Z := 40.
Definition ETIMEDOUT : Z := 110.
Definition ESTALE : Z := 116.

(** ** <unistd.h>: the standard descriptors *)

Definition STDIN_FILENO : Z := 0.
Definition STDOUT_FILENO : Z := 1.
Definition STDERR_FILENO : Z := 2.

(** How a call of the engine ends.  [Returns] is the ordinary return to the
    caller; [Throws] is [mpp::throw_ex<mpp::runtime_error>], which unwinds
    into the caller's frames; [Replaced] is a successful [execve] (the
    image is gone, nothing returns); [Exited] is [_exit]; [Fault] is an
    access outside the object an array pointer refers to. *)
Inductive outcome (A : Type) : Type :=
  | Returns (a : A)
  | Throws (what : string)
  | Replaced (file : string) (args : list string)
  | Exited (status : Z)
  | Fault.
Arguments Returns {A} a.
Arguments Throws {A} what.
Arguments Replaced {A} file args.
Arguments Exited {A} status.
Arguments Fault {A}.

#[global] Instance outcome_ret : MRet outcome := fun A a => Returns a.
#[global] Instance outcome_bind : MBind outcome := fun A B k m =>
  match m with
  | Returns a => k a
  | Throws w => Throws w
  | Replaced f a => Replaced f a
  | Exited s => Exited s
  | Fault => Fault
  end.

(** Dereferencing: [None] stands for an access that leaves its object. *)
Definition access {A} (o : option A) : outcome A :=
  match o with
  | Some a => Returns a
  | None => Fault
  end.

(** A process that has terminated for good, without handing control back. *)
Definition terminated {A} (o : outcome A) : bool :=
  match o with
  | Exited _ => true
  | _ => false
  end.

(** An outcome of the C parts of the engine, which neither raise an
    exception nor call [_exit]. *)
Definition plain {A} (o : outcome A) : Prop :=
  match o with
  | Throws _ | Exited _ => False
  | Returns _ | Replaced _ _ | Fault => True
  end.

(** * Process supervisor *)

Module Supervisor.

(** <sys/wait.h> (glibc, bits/waitstatus.h): the layout of a wait status. *)
Definition WTERMSIG (status : Z) : Z := Z.land status 0x7f.
Definition WEXITSTATUS (status : Z) : Z := Z.shiftr (Z.land status 0xff00) 8.
Definition WIFEXITED (status : Z) : bool := WTERMSIG status =? 0.

(** [(signed char) x]: the low byte of [x], read as two's complement. *)
Definition signed_char (x : Z) : Z :=
  let b := x mod 256 in if b <? 128 then b else b - 256.

Definition WIFSIGNALED (status : Z) : bool :=
  0 <? Z.shiftr (signed_char (Z.land status 0x7f + 1)) 1.

(** What the kernel stores for a child: [W_EXITCODE(ret, sig)], with
    [__WCOREFLAG] added when the signal dumped core. *)
Definition W_EXITCODE (ret sig : Z) : Z := Z.lor (Z.shiftl ret 8) sig.
Definition WCOREFLAG : Z := 0x80.

Definition status_of_exit (code : Z) : Z := W_EXITCODE code 0.
Definition status_of_signal (sig : Z) (core : bool) : Z :=
  Z.lor (W_EXITCODE 0 sig) (if core then WCOREFLAG else 0).

(** One answer of [waitpid(pid, &status, options)]. *)
Record waitpid_reply := WaitpidReply {
  wp_ret : Z;      (* the value returned: the pid, 0, or -1 *)
  wp_errno : Z;    (* errno after the call, meaningful when wp_ret < 0 *)
  wp_status : Z    (* what was stored through the status pointer *)
}.

Definition interrupted : waitpid_reply := WaitpidReply (-1) EINTR 0.
Definition no_such_child : waitpid_reply := WaitpidReply (-1) ECHILD 0.
Definition collected (pid status : Z) : waitpid_reply :=
  WaitpidReply pid 0 status.

(** The tail of [wait_for], after the loop: decoding the status. *)
Definition exit_outcome (status : Z) : Z :=
  if WIFEXITED status then WEXITSTATUS status
  else if WIFSIGNALED status then 0x80 + WTERMSIG status
  else status.

(** [wait_for].  The blocking calls are answered, in order, by [os]; the
    result is [None] as long as the answers received so far leave the
    caller blocked in the loop. *)
Fixpoint wait_for (os : list waitpid_reply) : option Z :=
  match os with
  | [] => None
  | r :: os' =>
      if wp_ret r <? 0 then
        if wp_errno r =? ECHILD then Some 0
        else if wp_errno r =? EINTR then wait_for os'
        else Some (-1)
      else Some (exit_outcome (wp_status r))
  end.

(** <csignal>: the disposition recorded for a signal. *)
Inductive sighandler :=
  | SIG_DFL
  | SIG_IGN
  | Handler (address : Z).

Definition is_SIG_IGN (h : sighandler) : bool :=
  match h with SIG_IGN => true | _ => false end.

(** [std::to_string(int)]. *)
Definition to_string (z : Z) : string := pretty z.

(** The OS as [process_exited] sees it. *)
Record poll_os := PollOs {
  waitpid_nohang : waitpid_reply;       (* waitpid(pid, nullptr, WNOHANG) *)
  sigaction_ret : Z;                    (* sigaction(SIGCHLD, nullptr, &sa) *)
  sa_handler : sighandler;              (* sa.sa_handler after that call *)
  stat_path : string -> Z * Z           (* stat(path, &buf): value, errno *)
}.

Definition process_exited (pid : Z) (os : poll_os) : outcome bool :=
  let result := wp_ret (waitpid_nohang os) in
  if result =? -1 then
    if negb (wp_errno (waitpid_nohang os) =? ECHILD) then
      Throws "should not reach here"
    else if negb (sigaction_ret os =? 0) then
      Throws "should not reach here"
    else if is_SIG_IGN (sa_handler os) then
      let path := "/proc/" +:+ to_string pid in
      let '(r, e) := stat_path os path in
      Returns ((r =? -1) && (e =? ENOENT))
    else Returns true
  else Returns (result =? 0).

End Supervisor.

(** * Executable resolver *)

Module Resolver.

#[local] Open Scope nat_scope.

Definition NUL : ascii := "000"%char.
Definition colon : ascii := ":"%char.

(** The characters of a C string, and the string a character list spells. *)
Definition chars (s : string) : list ascii := list_ascii_of_string s.
Definition unchars (l : list ascii) : string := string_of_list_ascii l.

Definition strlen (s : string) : nat := String.length s.

Definition default_path_env : string := ":/bin:/usr/bin".

(** [getenv]: the ambient environment maps names to values. *)
Definition getenv (environ : gmap string string) (name : string)
  : option string := environ !! name.

Definition get_path_env (environ : gmap string string) : string :=
  match getenv environ "PATH" with
  | Some s => s
  | None => default_path_env
  end.

(** [mpp::string_ref::count] is declared in <mozart++/string>, which is not
    part of this translation unit: the number of occurrences of [c]. *)
Definition count (c : ascii) (s : string) : nat :=
  length (filter (λ x, x = c) (chars s)).

(** An entry of [pathv]: a string literal, or a pointer into the writable
    copy of PATH, given by its offset in that copy. *)
Inductive entry :=
  | Literal (s : string)
  | InCopy (offset : nat).

(** [strcspn(p, ":")] for [p] at offset [off] of the copy: the number of
    characters before the first [':'] or the terminating NUL; [None] when
    the scan leaves the copy. *)
Fixpoint strcspn_from (l : list ascii) : option nat :=
  match l with
  | [] => None
  | c :: l' =>
      if decide (c = NUL ∨ c = colon) then Some 0
      else S <$> strcspn_from l'
  end.
Definition strcspn (copy : list ascii) (off : nat) : option nat :=
  strcspn_from (drop off copy).

(** A bounds-checked store into an array. *)
Definition store {A} (l : list A) (i : nat) (x : A) : option (list A) :=
  if decide (i < length l) then Some (<[i := x]> l) else None.

(** The splitting loop of [effective_pathv]: [n] iterations are left, [i]
    is the loop counter, [p] the offset of the scanning pointer. *)
Fixpoint split_loop (n i p : nat) (copy : list ascii)
    (pathv : list (option entry)) : option (list ascii * list (option entry)) :=
  match n with
  | O => Some (copy, pathv)
  | S n' =>
      k ← strcspn copy p;
      let sep := p + k in
      pathv' ← store pathv i (Some (if decide (p = sep) then Literal "." else InCopy p));
      copy' ← store copy sep NUL;
      split_loop n' (S i) (sep + 1) copy' pathv'
  end.

(** The block [effective_pathv] builds: the pointer table, which starts
    at the first byte of the block, and the bytes at [p], the writable
    copy of PATH the pointers of the table refer to. *)
Record pathv_block := PathvBlock {
  pathv_copy : list ascii;
  pathv_table : list (option entry)
}.

(** [sizeof(const char * )] on the LP64 systems the engine is built for. *)
Definition sizeof_ptr : nat := 8.

(** The sizes [effective_pathv] computes for a PATH value: the bytes of
    the pointer table, the bytes of the copy, and the bytes it asks
    [malloc] for. *)
Definition pathvsize (path : string) : nat :=
  sizeof_ptr * (count colon path + 1 + 1).
Definition pathsize (path : string) : nat := strlen path + 1.
Definition block_size (path : string) : nat := pathvsize path + pathsize path.

(** The byte of the block [p] points to.  [p] is [pathv + pathvsize], the
    sum being taken on [pathv], a [const char **], before the cast to
    [char *]: it advances by [pathvsize] pointers. *)
Definition copy_offset (path : string) : nat := sizeof_ptr * pathvsize path.

(** [memcpy(p, src, n)] for [p] at byte [off] of a block of [block] bytes:
    the bytes now at [p]; [None] when bytes are written outside the
    block. *)
Definition memcpy_at (block off : nat) (src : list ascii)
  : option (list ascii) :=
  if decide (off + length src ≤ block) then Some src else None.

(** What follows the [memcpy]: the loop over the [count] pieces and the
    terminator of the table.  The table comes from [malloc]; each of its
    [count + 1] slots is written before it is read. *)
Definition fill_pathv (count : nat) (copy : list ascii)
  : option pathv_block :=
  r ← split_loop count 0 0 copy (replicate (count + 1) None);
  pathv' ← store r.2 count None;
  Some (PathvBlock r.1 pathv').

(** [effective_pathv], as far as the table and the copy go.  The outer
    [option] is the C pointer returned ([None] for [nullptr], when [malloc]
    fails); [Fault] is an access outside the block. *)
Definition effective_pathv_block (malloc_ok : bool)
    (environ : gmap string string) : outcome (option pathv_block) :=
  let path := get_path_env environ in
  let count := count colon path + 1 in
  if negb malloc_ok then Returns None
  else
    match memcpy_at (block_size path) (copy_offset path)
            (chars path ++ [NUL]) with
    | None => Fault
    | Some copy =>
        match fill_pathv count copy with
        | None => Fault
        | Some blk => Returns (Some blk)
        end
    end.

(** Reading a C string at an offset of the copy: up to the next NUL. *)
Fixpoint until_NUL (l : list ascii) : option (list ascii) :=
  match l with
  | [] => None
  | c :: l' => if decide (c = NUL) then Some [] else (c ::.) <$> until_NUL l'
  end.
Definition c_str (copy : list ascii) (e : entry) : option string :=
  match e with
  | Literal s => Some s
  | InCopy off => unchars <$> until_NUL (drop off copy)
  end.

(** The loop [for (dirs = pathv; *dirs; dirs++)] of a reader of the table:
    the strings up to the first [nullptr]; [None] when an entry or the
    table is left without meeting one. *)
Fixpoint read_table (copy : list ascii) (table : list (option entry))
  : option (list string) :=
  match table with
  | [] => None
  | None :: _ => Some []
  | Some e :: table' =>
      s ← c_str copy e;
      (s ::.) <$> read_table copy table'
  end.

(** [effective_pathv] as its caller sees it: the candidate directories. *)
Definition effective_pathv (malloc_ok : bool) (environ : gmap string string)
  : outcome (option (list string)) :=
  b ← effective_pathv_block malloc_ok environ;
  match b with
  | None => Returns None
  | Some blk =>
      match read_table (pathv_copy blk) (pathv_table blk) with
      | None => Fault
      | Some dirs => Returns (Some dirs)
      end
  end.

(** The vocabulary of the properties: a PATH value made of the segments
    [segs] joined by colons, a segment being a C string without colon, and
    the directory a segment stands for. *)
Fixpoint join_colon (segs : list string) : string :=
  match segs with
  | [] => ""
  | s :: segs' =>
      match segs' with
      | [] => s
      | _ :: _ => s +:+ ":" +:+ join_colon segs'
      end
  end.

Definition segment (s : string) : Prop :=
  (colon ∉ chars s) ∧ (NUL ∉ chars s).

#[global] Instance segment_dec (s : string) : Decision (segment s).
Proof. unfold segment. apply _. Defined.

Definition directory_of (s : string) : string :=
  if decide (s = "") then "." else s.

(** What follows the first segment in a joined PATH: a colon and the rest,
    when there is a rest. *)
Definition after_segment (segs : list string) : list ascii :=
  match segs with
  | [] => []
  | _ :: _ => colon :: chars (join_colon segs)
  end.

(** The copy once every separator is overwritten, and the table entries
    for segments laid out from offset [p]. *)
Definition split_copy (segs : list string) : list ascii :=
  concat ((λ s, chars s ++ [NUL]) <$> segs).

Fixpoint entries (p : nat) (segs : list string) : list (option entry) :=
  match segs with
  | [] => []
  | s :: segs' =>
      Some (if decide (s = "") then Literal "." else InCopy p)
      :: entries (p + strlen s + 1) segs'
  end.

(** The segments of a PATH value: the pieces between its colons. *)
Fixpoint split_colon (s : string) : list string :=
  match s with
  | EmptyString => [""]
  | String c s' =>
      if decide (c = colon) then "" :: split_colon s'
      else match split_colon s' with
           | [] => [String c ""]
           | seg :: segs => String c seg :: segs
           end
  end.

End Resolver.

(** * Image replacement adapter *)

Module Adapter.

Import Resolver.

(** A [char **] array: its length is the number of slots the array object
    has, [None] is [nullptr]. *)
Abbreviation vector := (list (option string)).

(** The strings of a null-terminated vector, as [execve] reads them. *)
Fixpoint read_vector (v : vector) : option (list string) :=
  match v with
  | [] => None
  | None :: _ => Some []
  | Some s :: v' => (s ::.) <$> read_vector v'
  end.

(** The loop advancing [end] to the first [nullptr]: the index
    [end - argv]. *)
Fixpoint find_end (v : vector) : option nat :=
  match v with
  | [] => None
  | None :: _ => Some 0%nat
  | Some _ :: v' => S <$> find_end v'
  end.

(** [memmove] of [n] slots from index [src] to index [dst] of one array. *)
Definition memmove {A} (v : list A) (dst src n : nat) : option (list A) :=
  if decide (n = 0)%nat then Some v
  else if decide (src + n ≤ length v ∧ dst + n ≤ length v)%nat
  then Some (take dst v ++ take n (drop src v) ++ drop (dst + n) v)
  else None.

(** [envp] as [mpp_execvpe] tells it apart: [nullptr], the ambient
    [environ], or a vector of the caller's own. *)
Inductive envp_t :=
  | EnvNull
  | EnvAmbient
  | EnvOwn (vars : list string).

Definition has_slash (file : string) : bool :=
  bool_decide ("/"%char ∈ chars file).

(** The candidate built in [absolute_path]: [dir], a ['/'] unless [dir]
    ends in one, then [file].  Reading [absolute_path[dirlen - 1]] needs
    [dirlen > 0]. *)
Definition absolute_path (dir file : string) : option string :=
  c ← last (chars dir);
  Some (if decide (c = "/"%char) then dir +:+ file
        else dir +:+ "/" +:+ file).

Section os.

(** [execve(file, argv, envp)] and [execvp(file, argv)]: [None] when the
    image is replaced, otherwise the errno of the failure. *)
Variable execve : string → list string → list string → option Z.
Variable execvp : string → list string → option Z.
(** <climits> *)
Variable PATH_MAX : nat.
(** Whether [malloc] succeeds, and the ambient environment. *)
Variable malloc_ok : bool.
Variable environ : gmap string string.

Definition do_execve (file : string) (argv : vector) (envp : list string)
  : outcome Z :=
  args ← access (read_vector argv);
  match execve file args envp with
  | None => Replaced file args
  | Some e => Returns e
  end.

Definition do_execvp (file : string) (argv : vector) : outcome Z :=
  args ← access (read_vector argv);
  match execvp file args with
  | None => Replaced file args
  | Some e => Returns e
  end.

(** The functions return [void]; what they leave behind is errno and the
    contents of [argv]. *)
Definition execve_without_shebang (file : string) (argv : vector)
    (envp : list string) : outcome (Z * vector) :=
  argv0 ← access (argv !! 0%nat);
  n ← access (find_end argv);
  a1 ← access (memmove argv 2 1 n);
  a2 ← access (store a1 0 (Some "/bin/sh"));
  a3 ← access (store a2 1 (Some file));
  e ← do_execve "/bin/sh" a3 envp;
  a4 ← access (memmove a3 1 2 n);
  a5 ← access (store a4 0 argv0);
  Returns (e, a5).

Definition execve_or_shebang (file : string) (argv : vector)
    (envp : list string) : outcome (Z * vector) :=
  e ← do_execve file argv envp;
  if decide (e = ENOEXEC) then execve_without_shebang file argv envp
  else Returns (e, argv).

(** The errno values after which the [switch] tries the next directory. *)
Definition try_others : list Z :=
  [EACCES; ENOENT; ENOTDIR; ELOOP; ESTALE; ENODEV; ETIMEDOUT].

(** One turn of the [for] loop of [mpp_execvpe], for a directory that
    fits: the candidate is built in [absolute_path] and executed. *)
Definition try_candidate (dir file : string) (argv : vector)
    (envp : list string) : outcome (Z * vector) :=
  path ← access (absolute_path dir file);
  execve_or_shebang path argv envp.

(** The [for] loop of [mpp_execvpe] over the directories left, with the
    current errno and [sticky_errno]. *)
Fixpoint search_path (dirs : list string) (file : string) (argv : vector)
    (envp : list string) (errno sticky_errno : Z) : outcome (Z * vector) :=
  match dirs with
  | [] =>
      Returns (if decide (sticky_errno ≠ 0) then sticky_errno else errno, argv)
  | dir :: dirs' =>
      if decide (PATH_MAX ≤ strlen file + strlen dir + 2)%nat then
        search_path dirs' file argv envp ENAMETOOLONG sticky_errno
      else
        r ← try_candidate dir file argv envp;
        let '(e, argv') := r in
        if decide (e = EACCES) then
          search_path dirs' file argv' envp e e
        else if bool_decide (e ∈ [ENOENT; ENOTDIR; ELOOP; ESTALE; ENODEV; ETIMEDOUT]) then
          search_path dirs' file argv' envp e sticky_errno
        else Returns (e, argv')
  end.

(** Every directory of [dirs] that fits is tried in vain, with an errno
    after which the loop goes on, and with [argv] as it was. *)
Definition tried_in_vain (file : string) (argv : vector)
    (envp : list string) (dirs : list string) : Prop :=
  ∀ dir, dir ∈ dirs → (strlen file + strlen dir + 2 < PATH_MAX)%nat →
    ∃ e, try_candidate dir file argv envp = Returns (e, argv)
         ∧ e ∈ try_others.


Definition mpp_execvpe (errno : Z) (file : string) (argv : vector)
    (envp : envp_t) : outcome (Z * vector) :=
  match envp with
  | EnvNull | EnvAmbient =>
      e ← do_execvp file argv; Returns (e, argv)
  | EnvOwn vars =>
      if decide (file = "") then Returns (ENOENT, argv)
      else if has_slash file then execve_or_shebang file argv vars
      else
        pathv ← effective_pathv malloc_ok environ;
        dirs ← access pathv;
        search_path dirs file argv vars errno 0
  end.

End os.

End Adapter.

(** * Descriptor sweeper *)

Module Sweeper.

Definition FAIL_FILENO : Z := STDERR_FILENO + 1.

(** The descriptor table of the process: the set of open descriptors. *)
Definition close (fd : Z) (open : gset Z) : gset Z := open ∖ {[fd]}.

(** The descriptor [open(2)] hands out: the lowest one not in use. *)
Definition lowest_free (open : gset Z) : Z :=
  default 0 (head (filter (λ fd, fd ∉ open) (seqZ 0 (Z.of_nat (size open) + 1)))).

(** <cctype>, <cstdlib> *)
Definition isdigit (c : ascii) : bool :=
  let n := N_of_ascii c in ((48 <=? n) && (n <=? 57))%N.
Definition digit_value (c : ascii) : N := (N_of_ascii c - 48)%N.
Fixpoint strtol_go (acc : N) (s : string) : N :=
  match s with
  | String c s' =>
      if isdigit c then strtol_go (acc * 10 + digit_value c) s' else acc
  | EmptyString => acc
  end.
(** [strtol(s, nullptr, 10)] on a name that starts with a digit. *)
Definition strtol (s : string) : Z := Z.of_N (strtol_go 0 s).

(** [d_name[0]]; the name is NUL-terminated. *)
Definition first_char (s : string) : ascii :=
  match s with
  | String c _ => c
  | EmptyString => Resolver.NUL
  end.

(** What [readdir64] enumerates in FD_DIR: the two dot entries and one
    entry per open descriptor, named by its decimal number. *)
Definition fd_dir_entries (open : gset Z) : list string :=
  "." :: ".." :: (pretty <$> elements open).

(** The body of the [readdir64] loop for one entry. *)
Definition sweep_entry (from_fd : Z) (open : gset Z) (d_name : string)
  : gset Z :=
  if isdigit (first_char d_name) && (from_fd + 2 <=? strtol d_name)
  then close (strtol d_name) open
  else open.

(** [close_all_descriptors].  [opendir_ok] tells whether [opendir(FD_DIR)]
    succeeds; when it does, the directory stream sits on the lowest free
    descriptor until [closedir]. *)
Definition close_all_descriptors (opendir_ok : bool) (open : gset Z)
  : bool * gset Z :=
  let from_fd := FAIL_FILENO + 1 in
  let open1 := close from_fd open in
  let open2 := close (from_fd + 1) open1 in
  if negb opendir_ok then (false, open2)
  else
    let dp := lowest_free open2 in
    let open3 := {[dp]} ∪ open2 in
    let open4 := foldl (sweep_entry from_fd) open3 (fd_dir_entries open3) in
    (true, close dp open4).

(** The sweep as [child_proc] runs it: [close_all_descriptors], and when
    that fails every descriptor from [FAIL_FILENO + 1] up to
    [sysconf(_SC_OPEN_MAX)].  A failing [close] is skipped over. *)
Definition sweep (opendir_ok : bool) (max_fd : Z) (open : gset Z) : gset Z :=
  let '(ok, open') := close_all_descriptors opendir_ok open in
  if negb ok then
    foldl (λ t fd, close fd t) open'
          (seqZ (FAIL_FILENO + 1) (max_fd - (FAIL_FILENO + 1)))
  else open'.

End Sweeper.

(** * Child launcher *)

Module Launcher.

Import Resolver Adapter Sweeper.

(** The two slots of a pipe array [fd_type[2]]. *)
Inductive slot := PIPE_READ | PIPE_WRITE.

(** A pipe array, read as [p PIPE_READ] and [p PIPE_WRITE]. *)
Abbreviation pipe := (slot → Z).
Definition mk_pipe (r w : Z) : pipe :=
  λ s, match s with PIPE_READ => r | PIPE_WRITE => w end.

Record redirect_info := RedirectInfo { redirected : bool }.

Record process_startup := ProcessStartup {
  _cmdline : list string;
  _env : list (string * string);
  _cwd : string;
  _stdin : redirect_info;
  _stdout : redirect_info;
  _stderr : redirect_info;
  merge_outputs : bool
}.

Module info.
Record process_info := ProcessInfo {
  _pid : Z;
  _tid : Z;
  _stdin : Z;
  _stdout : Z;
  _stderr : Z
}.
End info.

(** The descriptor calls of the launcher, in program order.  [close_fd]
    is declared in <mozart++/process>, outside this translation unit; it
    is taken to close the descriptor it is given. *)
Inductive call :=
  | Close_fd (fd : Z)
  | Dup2 (oldfd newfd : Z).

(** Their effect on the descriptor table.  [dup2] fails, and changes
    nothing, when [oldfd] is not open; its result is ignored throughout. *)
Definition dup2_ok (oldfd : Z) (open : gset Z) : bool :=
  bool_decide (oldfd ∈ open).
Definition run_call (open : gset Z) (c : call) : gset Z :=
  match c with
  | Close_fd fd => close fd open
  | Dup2 oldfd newfd => if dup2_ok oldfd open then {[newfd]} ∪ open else open
  end.

(** The descriptors closed by a sequence of calls, in order. *)
Definition closed_fds (cs : list call) : list Z :=
  omap (λ c, match c with Close_fd fd => Some fd | Dup2 _ _ => None end) cs.

(** How often a sequence of calls closes the descriptor [fd]. *)
Definition times_closed (cs : list call) (fd : Z) : nat :=
  length (filter (λ x, x = fd) (closed_fds cs)).

Definition when (b : bool) (cs : list call) : list call :=
  if b then cs else [].

(** [child_proc], the redirection part. *)
Definition child_pipes (startup : process_startup)
    (pstdin pstdout pstderr : pipe) : list call :=
  when (negb (redirected (_stdin startup))) [Close_fd (pstdin PIPE_WRITE)]
  ++ when (negb (redirected (_stdout startup))) [Close_fd (pstdout PIPE_READ)]
  ++ [Dup2 (pstdin PIPE_READ) STDIN_FILENO;
      Dup2 (pstdout PIPE_WRITE) STDOUT_FILENO]
  ++ (if merge_outputs startup
      then [Dup2 (pstdout PIPE_WRITE) STDERR_FILENO]
      else when (negb (redirected (_stderr startup)))
                [Close_fd (pstderr PIPE_READ)]
           ++ [Dup2 (pstderr PIPE_WRITE) STDERR_FILENO])
  ++ [Close_fd (pstdin PIPE_READ);
      Close_fd (pstdout PIPE_WRITE);
      Close_fd (pstderr PIPE_WRITE)].

(** [char *argv[asize + 1]], filled from the command line. *)
Definition child_argv (startup : process_startup) : vector :=
  (Some <$> _cmdline startup) ++ [None].

(** The entries of [envp], rendered as NAME=VALUE. *)
Definition child_envp (startup : process_startup) : list string :=
  (λ e, e.1 +:+ "=" +:+ e.2) <$> _env startup.

(** [create_process_impl], the parent's part of the redirection. *)
Definition parent_pipes (startup : process_startup)
    (pstdin pstdout pstderr : pipe) : list call :=
  when (negb (redirected (_stdin startup))) [Close_fd (pstdin PIPE_READ)]
  ++ when (negb (redirected (_stdout startup))) [Close_fd (pstdout PIPE_WRITE)]
  ++ (if merge_outputs startup
      then []
      else when (negb (redirected (_stderr startup)))
                [Close_fd (pstderr PIPE_WRITE)]).

Section os.

Variable execve : string → list string → list string → option Z.
Variable execvp : string → list string → option Z.
Variable PATH_MAX : nat.
Variable malloc_ok : bool.
Variable environ : gmap string string.
(** [opendir(FD_DIR)] succeeds; [sysconf(_SC_OPEN_MAX)]; [chdir(path)]. *)
Variable opendir_ok : bool.
Variable open_max : Z.
Variable chdir : string → Z.
(** The constant of <mozart++/process> for "no descriptor". *)
Variable FD_INVALID : Z.

(** What a run of [child_proc] leaves: the descriptor calls made, the
    descriptor table after the sweep, and how the function ends. *)
Record child_run := ChildRun {
  calls : list call;
  descriptors : gset Z;
  ending : outcome ()
}.

(** [child_proc], started with descriptor table [open] and errno [errno]. *)
Definition child_proc (startup : process_startup)
    (pstdin pstdout pstderr : pipe) (open : gset Z) (errno : Z) : child_run :=
  let cs := child_pipes startup pstdin pstdout pstderr in
  let open1 := foldl run_call open cs in
  let argv := child_argv startup in
  let envp := child_envp startup in
  let open2 := sweep opendir_ok open_max open1 in
  ChildRun cs open2
    (if decide (chdir (_cwd startup) ≠ 0) then
       Throws "unable to change current working directory"
     else
       file ← access (mjoin (argv !! 0%nat));
       _ ← mpp_execvpe execve execvp PATH_MAX malloc_ok environ
             errno file argv (EnvOwn envp);
       Exited 1).

(** [create_process_impl] in the process where [fork] returned [pid]: the
    descriptor calls the process makes, and how the function ends. *)
Definition create_process_impl (pid : Z) (startup : process_startup)
    (i : info.process_info) (pstdin pstdout pstderr : pipe)
    (open : gset Z) (errno : Z) : list call * outcome info.process_info :=
  if decide (pid < 0) then ([], Throws "unable to fork subprocess")
  else if decide (pid = 0) then
    let r := child_proc startup pstdin pstdout pstderr open errno in
    (calls r, _ ← ending r; Returns i)
  else
    (parent_pipes startup pstdin pstdout pstderr,
     Returns (info.ProcessInfo pid FD_INVALID (pstdin PIPE_WRITE)
                (pstdout PIPE_READ) (pstderr PIPE_READ))).

End os.

(** [close_process]: the three descriptors of the handle are closed. *)
Definition close_process (i : info.process_info) : list call :=
  [Close_fd (info._stdin i); Close_fd (info._stdout i);
   Close_fd (info._stderr i)].

End Launcher.

(** * A sample system

    A small file system and environment on which the functions above can
    be run: [/opt/bin/tool] may not be executed, [/mnt/tool] sits on a
    failing device, nothing else exists. *)

Module Sample.

Import Adapter Launcher.

Definition EIO : Z := 5.

Definition execve (file : string) (args envp : list string) : option Z :=
  if decide (file = "/opt/bin/tool") then Some EACCES
  else if decide (file = "/mnt/tool") then Some EIO
  else Some ENOENT.

(** An [execve] and an [execvp] that replace the image whatever they are
    asked to run. *)
Definition execve_any (file : string) (args envp : list string)
  : option Z := None.
Definition execvp_any (file : string) (args : list string)
  : option Z := None.

(** The same file system with an executable [/usr/bin/tool]. *)
Definition execve_usr (file : string) (args envp : list string) : option Z :=
  if decide (file = "/usr/bin/tool") then None else execve file args envp.

Definition environ : gmap string string :=
  {["PATH" := "/opt/bin:/usr/bin"]}.

Definition argv : vector := [Some "tool"; Some "--version"; None].

Definition startup : process_startup :=
  ProcessStartup ["tool"; "--version"] [("LANG", "C")] "/srv"
    (RedirectInfo false) (RedirectInfo false) (RedirectInfo false) false.

(** The same start with the program given by its path, with an empty
    program name, and with no command line at all. *)
Definition startup_direct : process_startup :=
  ProcessStartup ["/usr/bin/tool"; "--version"] [("LANG", "C")] "/srv"
    (RedirectInfo false) (RedirectInfo false) (RedirectInfo false) false.
Definition startup_empty_name : process_startup :=
  ProcessStartup [""; "--version"] [("LANG", "C")] "/srv"
    (RedirectInfo false) (RedirectInfo false) (RedirectInfo false) false.
Definition startup_empty : process_startup :=
  ProcessStartup [] [("LANG", "C")] "/srv"
    (RedirectInfo false) (RedirectInfo false) (RedirectInfo false) false.

(** A descriptor table: the standard descriptors, three pipes and one
    descriptor of the caller's. *)
Definition open : gset Z :=
  list_to_set [0; 1; 2; 7; 10; 11; 12; 13; 14; 15].

End Sample.

(** * Properties of the process supervisor *)

Section supervisor_props.

Import Supervisor.

Lemma wait_for_interrupted (k : nat) (os : list waitpid_reply) :
  wait_for (replicate k interrupted ++ os) = wait_for os.
Proof. induction k as [|k IH]; [reflexivity | exact IH]. Qed.

Lemma wait_for_blocked (k : nat) : wait_for (replicate k interrupted) = None.
Proof.
  rewrite <- (app_nil_r (replicate k interrupted)).
  apply wait_for_interrupted.
Qed.

(** A property of all integers of a range, checked by running through it. *)
Lemma range_check (P : Z → bool) (lo len : Z) :
  forallb P (seqZ lo len) = true → ∀ x, lo ≤ x < lo + len → P x = true.
Proof.
  intros H x Hx. rewrite forallb_forall in H.
  apply H, list_elem_of_In, elem_of_seqZ. lia.
Qed.

Lemma exit_outcome_exit (C : Z) :
  0 ≤ C ≤ 255 → exit_outcome (status_of_exit C) = C.
Proof.
  intros HC.
  apply Z.eqb_eq.
  apply (range_check (λ c, exit_outcome (status_of_exit c) =? c) 0 256);
    [vm_compute; reflexivity | lia].
Qed.

Lemma exit_outcome_signal (S : Z) (core : bool) :
  1 ≤ S ≤ 31 → exit_outcome (status_of_signal S core) = 128 + S.
Proof.
  intros HS.
  apply Z.eqb_eq.
  apply (range_check
           (λ s, exit_outcome (status_of_signal s core) =? 128 + s) 1 31);
    [destruct core; vm_compute; reflexivity | lia].
Qed.

(** The "no such child" path: with SIGCHLD not ignored the child is taken
    to have exited; with SIGCHLD ignored the answer is whether
    [/proc/<pid>] is gone. *)
Lemma process_exited_no_such_child
    (pid status : Z) (h : sighandler) (stat : string → Z * Z) :
  process_exited pid (PollOs (WaitpidReply (-1) ECHILD status) 0 h stat)
  = Returns (if is_SIG_IGN h
             then ((stat ("/proc/" +:+ to_string pid)).1 =? -1)
                  && ((stat ("/proc/" +:+ to_string pid)).2 =? ENOENT)
             else true).
Proof.
  unfold process_exited. cbn [waitpid_nohang wp_ret wp_errno sigaction_ret sa_handler stat_path].
  change (-1 =? -1) with true. change (ECHILD =? ECHILD) with true.
  change (0 =? 0) with true. cbn [negb].
  destruct (is_SIG_IGN h); [|reflexivity].
  destruct (stat _) as [r e]. reflexivity.
Qed.

(** C1 (as the code behaves).  [process_exited] answers [true], that is
    "exited", whenever the non-blocking [waitpid] returns 0, the answer
    that says the child exists and has not changed state; and it answers
    [false] whenever [waitpid] returns the (positive) pid of a child it
    has just collected.  Both answers are the opposite of what poll is
    specified to report. *)
Theorem process_exited_inverted
    (pid errno status sigret : Z) (h : sighandler)
    (stat : string → Z * Z) (child : positive) :
  process_exited pid
    (PollOs (WaitpidReply 0 errno status) sigret h stat) = Returns true
  ∧ process_exited pid
      (PollOs (WaitpidReply (Z.pos child) errno status) sigret h stat)
    = Returns false.
Proof. split; reflexivity. Qed.

(** C2.  [wait_for] stays blocked while every call is interrupted, and
    retries through any number [k] of interrupted calls; "no such child"
    gives 0; a child that exited with code [C] in 0..255 gives [C]; a
    child killed by signal [S] in 1..31 (core dumped or not) gives
    [128 + S]. *)
Theorem wait_for_outcome
    (k : nat) (os : list waitpid_reply) (pid C S : Z) (core : bool) :
  0 < pid → 0 ≤ C ≤ 255 → 1 ≤ S ≤ 31 →
  wait_for (replicate k interrupted) = None
  ∧ wait_for (replicate k interrupted ++ no_such_child :: os) = Some 0
  ∧ wait_for (replicate k interrupted
              ++ collected pid (status_of_exit C) :: os) = Some C
  ∧ wait_for (replicate k interrupted
              ++ collected pid (status_of_signal S core) :: os)
    = Some (128 + S).
Proof.
  intros Hpid HC HS.
  split; [apply wait_for_blocked|].
  rewrite !wait_for_interrupted. cbn [wait_for wp_ret wp_errno wp_status no_such_child collected].
  split; [reflexivity|].
  destruct (Z.ltb_spec pid 0) as [?|_]; [lia|].
  rewrite exit_outcome_exit, exit_outcome_signal by assumption.
  split; reflexivity.
Qed.

Lemma wait_for_outcome_witness :
  wait_for [interrupted; interrupted] = None
  ∧ wait_for [interrupted; interrupted; no_such_child] = Some 0
  ∧ wait_for [interrupted; interrupted; collected 4242 (status_of_exit 3)]
    = Some 3
  ∧ wait_for [interrupted; interrupted;
              collected 4242 (status_of_signal 9 false)] = Some 137.
Proof.
  apply (wait_for_outcome 2 [] 4242 3 9 false); lia.
Defined.

End supervisor_props.

(** * Properties of the executable resolver *)

Section resolver_props.

Import Resolver.

(** C5 (as stated, refuted).  With PATH set to the empty string the
    resolver uses that empty value, not the default list. *)
Lemma get_path_env_empty_not_default :
  get_path_env {["PATH" := ""]} = ""
  ∧ get_path_env {["PATH" := ""]} ≠ default_path_env.
Proof. split; [reflexivity | discriminate]. Qed.

(** C5 (amended).  The default path list is used when PATH is absent from
    the environment; when PATH is present its value is used, whatever it
    is. *)
Theorem get_path_env_absent_or_set
    (environ : gmap string string) (value : string) :
  get_path_env (delete "PATH" environ) = default_path_env
  ∧ get_path_env (<["PATH" := value]> environ) = value.
Proof.
  unfold get_path_env, getenv.
  rewrite lookup_delete_eq, lookup_insert_eq. split; reflexivity.
Qed.

Lemma chars_app (a b : string) : chars (a +:+ b) = chars a ++ chars b.
Proof.
  unfold chars. induction a as [|c a IH]; [reflexivity|].
  change (String c a +:+ b) with (String c (a +:+ b)).
  cbn. f_equal. exact IH.
Qed.

Lemma unchars_chars (s : string) : unchars (chars s) = s.
Proof. apply string_of_list_ascii_of_string. Qed.

Lemma strlen_chars (s : string) : strlen s = length (chars s).
Proof.
  unfold strlen, chars.
  induction s as [|c s IH]; [reflexivity | cbn; f_equal; exact IH].
Qed.

Lemma chars_join_colon (s : string) (segs : list string) :
  chars (join_colon (s :: segs)) = chars s ++ after_segment segs.
Proof.
  destruct segs as [|s' segs]; cbn [join_colon after_segment].
  - symmetry; apply app_nil_r.
  - rewrite !chars_app. reflexivity.
Qed.

Lemma count_join_colon (s : string) (segs : list string) :
  Forall segment (s :: segs) →
  count colon (join_colon (s :: segs)) = length segs.
Proof.
  revert s; induction segs as [|s' segs IH]; intros s Hall;
    unfold count; rewrite chars_join_colon; cbn [after_segment].
  - rewrite app_nil_r.
    apply Forall_inv in Hall as [Hc _].
    induction (chars s) as [|c l IHl]; [reflexivity|].
    rewrite filter_cons_False by (intros ->; apply Hc; left).
    apply IHl. intros ?; apply Hc; right; assumption.
  - inversion Hall as [|? ? [Hc _] Hrest]; subst.
    rewrite filter_app, length_app, filter_cons_True by reflexivity.
    cbn [length]. fold (count colon (join_colon (s' :: segs))).
    rewrite (IH s' Hrest).
    replace (length (filter (λ x, x = colon) (chars s))) with 0%nat; [reflexivity|].
    clear -Hc. induction (chars s) as [|c l IHl]; [reflexivity|].
    rewrite filter_cons_False by (intros ->; apply Hc; left).
    apply IHl. intros ?; apply Hc; right; assumption.
Qed.

Lemma strcspn_from_segment (l : list ascii) (c : ascii) (rest : list ascii) :
  colon ∉ l → NUL ∉ l → c = NUL ∨ c = colon →
  strcspn_from (l ++ c :: rest) = Some (length l).
Proof.
  intros Hc Hn Hstop. induction l as [|x l IH]; cbn.
  - rewrite decide_True by assumption. reflexivity.
  - rewrite decide_False.
    + rewrite IH; [reflexivity | |]; intros ?; [apply Hc | apply Hn]; right; assumption.
    + intros [->| ->]; [apply Hn | apply Hc]; left.
Qed.

Lemma until_NUL_segment (l rest : list ascii) :
  NUL ∉ l → until_NUL (l ++ NUL :: rest) = Some l.
Proof.
  intros Hn. induction l as [|x l IH]; cbn.
  - rewrite decide_True by reflexivity. reflexivity.
  - rewrite decide_False by (intros ->; apply Hn; left).
    rewrite IH; [reflexivity|]. intros ?; apply Hn; right; assumption.
Qed.

Lemma store_lt {A} (l : list A) (i : nat) (x : A) :
  (i < length l)%nat → store l i x = Some (<[i := x]> l).
Proof. intros H. unfold store. rewrite decide_True by exact H. reflexivity. Qed.

Lemma entry_choice (s : string) (p : nat) :
  (if decide (p = (p + length (chars s))%nat) then Literal "." else InCopy p)
  = (if decide (s = "") then Literal "." else InCopy p).
Proof.
  destruct (decide (s = "")) as [->|Hs].
  - rewrite decide_True by (cbn; lia). reflexivity.
  - rewrite decide_False; [reflexivity|].
    destruct s; [congruence | cbn; lia].
Qed.

Lemma split_loop_S (n i p : nat) (copy : list ascii)
    (pathv : list (option entry)) :
  split_loop (S n) i p copy pathv
  = (k ← strcspn copy p;
     pathv' ← store pathv i
                (Some (if decide (p = (p + k)%nat) then Literal "." else InCopy p));
     copy' ← store copy (p + k) NUL;
     split_loop n (S i) (p + k + 1) copy' pathv').
Proof. reflexivity. Qed.

Lemma length_entries (p : nat) (segs : list string) :
  length (entries p segs) = length segs.
Proof.
  revert p; induction segs as [|s segs IH]; intros p; [reflexivity|].
  cbn. f_equal. apply IH.
Qed.

(** The loop invariant of [effective_pathv]: with [pre] already split off
    and the segments [s :: segs] still joined behind it, the remaining
    iterations overwrite each separator and fill one table slot each. *)
Lemma split_loop_spec (segs : list string) :
  ∀ (s : string) (pre : list ascii) (i : nat) (pathv : list (option entry)),
    Forall segment (s :: segs) →
    (i + length (s :: segs) ≤ length pathv)%nat →
    split_loop (length (s :: segs)) i (length pre)
      (pre ++ chars (join_colon (s :: segs)) ++ [NUL]) pathv
    = Some (pre ++ split_copy (s :: segs),
            take i pathv ++ entries (length pre) (s :: segs)
              ++ drop (i + length (s :: segs)) pathv).
Proof.
  induction segs as [|s' segs IH]; intros s pre i pathv Hall Hlen.
  all: inversion Hall as [|? ? [Hc Hn] Hrest]; subst.
  all: cbn [length] in Hlen.
  all: cbn [length]; rewrite split_loop_S.
  all: unfold strcspn; rewrite drop_app_length, chars_join_colon.
  all: rewrite <- (app_assoc (chars s)).
  - cbn [after_segment app].
    rewrite (strcspn_from_segment _ NUL []) by auto. cbn [mbind option_bind].
    rewrite (store_lt pathv) by lia. cbn [mbind option_bind].
    rewrite store_lt by (rewrite !length_app; cbn; lia).
    cbn [mbind option_bind split_loop]. f_equal. f_equal.
    + rewrite insert_app_r_alt by lia.
      replace (length pre + length (chars s) - length pre)%nat
        with (length (chars s) + 0)%nat by lia.
      rewrite insert_app_r. cbn. unfold split_copy. cbn.
      rewrite app_nil_r. reflexivity.
    + rewrite insert_take_drop by lia. cbn [entries app].
      rewrite entry_choice. do 3 f_equal. lia.
  - cbn [after_segment].
    rewrite <- app_comm_cons.
    rewrite (strcspn_from_segment _ colon) by auto. cbn [mbind option_bind].
    rewrite (store_lt pathv) by lia. cbn [mbind option_bind].
    rewrite store_lt by (rewrite !length_app; cbn; lia).
    cbn [mbind option_bind].
    rewrite insert_app_r_alt by lia.
    replace (length pre + length (chars s) - length pre)%nat
      with (length (chars s) + 0)%nat by lia.
    rewrite insert_app_r. cbn [insert list_insert].
    replace (length pre + length (chars s) + 1)%nat
      with (length (pre ++ chars s ++ [NUL])) by (rewrite !length_app; cbn; lia).
    replace (pre ++ chars s ++ NUL :: chars (join_colon (s' :: segs)) ++ [NUL])
      with ((pre ++ chars s ++ [NUL]) ++ chars (join_colon (s' :: segs)) ++ [NUL])
      by (rewrite <- !app_assoc; reflexivity).
    change (S (length segs)) with (length (s' :: segs)) at 1.
    rewrite IH; [|assumption|rewrite length_insert; cbn [length] in *; lia].
    f_equal. f_equal.
    + unfold split_copy. cbn [fmap list_fmap concat].
      rewrite <- !app_assoc. reflexivity.
    + rewrite take_insert_lt by lia.
      rewrite (take_S_r _ _ (pathv !!! i)) at 1.
      2:{ apply list_lookup_lookup_total_lt; lia. }
      rewrite insert_app_r_alt by (rewrite length_take; lia).
      rewrite length_take, Nat.min_l by lia.
      rewrite Nat.sub_diag. cbn [insert list_insert].
      rewrite drop_insert_lt by lia.
      rewrite <- !app_assoc.
      replace (length (pre ++ chars s ++ [NUL]))
        with (length pre + strlen s + 1)%nat
        by (rewrite !length_app, strlen_chars; cbn; lia).
      replace (S i + length (s' :: segs))%nat
        with (i + S (S (length segs)))%nat by (cbn; lia).
      cbn [app entries]. rewrite entry_choice. reflexivity.
Qed.

(** Reading the finished table back gives one directory per segment. *)
Lemma read_entries (segs : list string) :
  ∀ (pre : list ascii) (tl : list (option entry)),
    Forall segment segs →
    read_table (pre ++ split_copy segs)
      (entries (length pre) segs ++ None :: tl)
    = Some (directory_of <$> segs).
Proof.
  induction segs as [|s segs IH]; intros pre tl Hall; [reflexivity|].
  inversion Hall as [|? ? [Hc Hn] Hrest]; subst.
  cbn [entries app read_table fmap list_fmap].
  assert (Hs : c_str (pre ++ split_copy (s :: segs))
                 (if decide (s = "") then Literal "." else InCopy (length pre))
               = Some (directory_of s)).
  { unfold directory_of. destruct (decide (s = "")) as [->|Hs]; [reflexivity|].
    cbn [c_str]. rewrite drop_app_length.
    unfold split_copy. cbn [fmap list_fmap concat].
    rewrite <- !app_assoc. cbn [app].
    rewrite until_NUL_segment by assumption.
    cbn. rewrite unchars_chars. reflexivity. }
  rewrite Hs. cbn [mbind option_bind].
  replace (pre ++ split_copy (s :: segs))
    with ((pre ++ chars s ++ [NUL]) ++ split_copy segs)
    by (unfold split_copy; cbn [fmap list_fmap concat];
        rewrite <- !app_assoc; reflexivity).
  replace (length pre + strlen s + 1)%nat
    with (length (pre ++ chars s ++ [NUL]))
    by (rewrite !length_app, strlen_chars; cbn; lia).
  rewrite IH by assumption. reflexivity.
Qed.

(** On a buffer that holds a PATH value given by its segments, the loop
    and the terminator of the table leave one entry per segment. *)
Lemma fill_pathv_join (s : string) (segs : list string) :
  Forall segment (s :: segs) →
  fill_pathv (length (s :: segs)) (chars (join_colon (s :: segs)) ++ [NUL])
  = Some (PathvBlock (split_copy (s :: segs))
            (entries 0 (s :: segs) ++ [None])).
Proof.
  intros Hall. unfold fill_pathv.
  pose proof (split_loop_spec segs s [] 0
                (replicate (length (s :: segs) + 1) None) Hall) as Hloop.
  cbn [app length] in Hloop. cbn [length].
  rewrite Hloop by (rewrite length_replicate; lia).
  cbn [mbind option_bind fst snd].
  rewrite drop_replicate.
  replace (S (length segs) + 1 - (0 + S (length segs)))%nat with 1%nat by lia.
  rewrite take_0. cbn [replicate app].
  pose proof (length_entries 0 (s :: segs)) as Hlen. cbn [length] in Hlen.
  rewrite store_lt by (rewrite length_app, Hlen; cbn; lia).
  rewrite insert_app_r_alt by (rewrite Hlen; lia).
  rewrite Hlen, Nat.sub_diag. reflexivity.
Qed.

(** The copy never fits: it is put [pathvsize] pointers, not [pathvsize]
    bytes, behind the start of the block. *)
Lemma copy_outside_block (path : string) :
  (block_size path < copy_offset path + pathsize path)%nat.
Proof. unfold block_size, copy_offset, pathvsize, sizeof_ptr. lia. Qed.

(** C6 (as the code behaves).  [effective_pathv] asks [malloc] for
    [pathvsize + pathsize] bytes and then copies the [pathsize] bytes of
    PATH to [pathv + pathvsize], an address computed in units of pointers:
    the copy ends behind the end of the block for every PATH value.  So
    whenever [malloc] succeeds the function writes outside its block
    before it has split anything, and no table of candidate directories
    is validly built. *)
Theorem effective_pathv_copy_outside_block (environ : gmap string string) :
  let path := get_path_env environ in
  (block_size path < copy_offset path + pathsize path)%nat
  ∧ memcpy_at (block_size path) (copy_offset path) (chars path ++ [NUL])
    = None
  ∧ effective_pathv_block true environ = Fault
  ∧ effective_pathv true environ = Fault.
Proof.
  cbv zeta. pose proof (copy_outside_block (get_path_env environ)) as Hout.
  assert (Hcpy : memcpy_at (block_size (get_path_env environ))
                   (copy_offset (get_path_env environ))
                   (chars (get_path_env environ) ++ [NUL]) = None).
  { unfold memcpy_at. rewrite decide_False; [reflexivity|].
    rewrite length_app, <- strlen_chars. unfold pathsize in Hout.
    cbn [length]. lia. }
  assert (Hblk : effective_pathv_block true environ = Fault)
    by (unfold effective_pathv_block; cbn [negb]; rewrite Hcpy; reflexivity).
  repeat split; try assumption.
  unfold effective_pathv. rewrite Hblk. reflexivity.
Qed.

End resolver_props.

(** * Properties of the descriptor sweeper *)

Section sweeper_props.

Import Sweeper.

(** [open(2)] never hands out a descriptor that is in use. *)
Lemma lowest_free_fresh (open : gset Z) : lowest_free open ∉ open.
Proof.
  unfold lowest_free.
  destruct (head (filter _ _)) as [fd|] eqn:Hhead; cbn [default].
  - apply head_Some_elem_of, list_elem_of_filter in Hhead. tauto.
  - exfalso. apply head_None in Hhead.
    set (n := (Z.of_nat (size open) + 1)%Z) in *.
    assert (Hsub : list_to_set (seqZ 0 n) ⊆ open).
    { intros fd Hfd. apply elem_of_list_to_set in Hfd.
      destruct (decide (fd ∈ open)) as [|Hout]; [assumption|].
      assert (Hin : fd ∈ filter (λ fd, fd ∉ open) (seqZ 0 n))
        by (apply list_elem_of_filter; split; assumption).
      rewrite Hhead in Hin. inversion Hin. }
    apply subseteq_size in Hsub.
    rewrite size_list_to_set in Hsub by apply NoDup_seqZ.
    rewrite length_seqZ in Hsub. lia.
Qed.

Lemma pretty_N_char_digit (d : N) :
  (d < 10)%N →
  isdigit (pretty_N_char d) = true ∧ digit_value (pretty_N_char d) = d.
Proof.
  intros Hd.
  assert (d = 0 ∨ d = 1 ∨ d = 2 ∨ d = 3 ∨ d = 4 ∨ d = 5
          ∨ d = 6 ∨ d = 7 ∨ d = 8 ∨ d = 9)%N as Hcases by lia.
  repeat destruct Hcases as [->|Hcases]; try subst d; split; reflexivity.
Qed.

(** Parsing the digits [pretty_N_go] puts in front of [s] adds the number
    they spell to the accumulator, scaled by a power of ten [k]. *)
Lemma strtol_go_pretty (x : N) :
  ∃ k : N, ∀ (acc : N) (s : string),
    strtol_go acc (pretty_N_go x s) = strtol_go (acc * k + x) s.
Proof.
  induction (N.lt_wf_0 x) as [x _ IH].
  destruct (decide (x = 0)%N) as [->|Hx].
  - exists 1%N. intros acc s. rewrite pretty_N_go_0. f_equal. lia.
  - destruct (IH (x `div` 10)%N) as [k Hk]; [apply N.div_lt; lia|].
    exists (k * 10)%N. intros acc s.
    rewrite pretty_N_go_step by lia. rewrite Hk. cbn [strtol_go].
    destruct (pretty_N_char_digit (x `mod` 10)%N) as [-> ->];
      [apply N.mod_lt; lia|].
    f_equal. pose proof (N.div_mod x 10). lia.
Qed.

Lemma first_char_pretty_go (x : N) :
  ∀ s : string, (0 < x)%N → isdigit (first_char (pretty_N_go x s)) = true.
Proof.
  induction (N.lt_wf_0 x) as [x _ IH]; intros s Hx.
  rewrite pretty_N_go_step by assumption.
  destruct (decide (x `div` 10 = 0)%N) as [->|Hq].
  - rewrite pretty_N_go_0. cbn [first_char].
    apply pretty_N_char_digit, N.mod_lt; lia.
  - apply IH; [apply N.div_lt; lia | apply N.neq_0_lt_0; exact Hq].
Qed.

(** The name of a descriptor in FD_DIR starts with a digit and reads back
    as the descriptor. *)
Lemma strtol_pretty (fd : Z) :
  0 ≤ fd → isdigit (first_char (pretty fd)) = true ∧ strtol (pretty fd) = fd.
Proof.
  intros Hfd. destruct fd as [|p|p]; [split; reflexivity | | lia].
  unfold pretty, pretty_Z, pretty, pretty_positive, pretty, pretty_N.
  rewrite decide_False by discriminate. split.
  - apply first_char_pretty_go. lia.
  - unfold strtol. destruct (strtol_go_pretty (N.pos p)) as [k Hk].
    rewrite Hk. cbn [strtol_go]. lia.
Qed.

Lemma foldl_sweep_entry (from_fd : Z) (names : list string) :
  ∀ (open : gset Z) (fd : Z),
    fd ∈ foldl (sweep_entry from_fd) open names
    ↔ fd ∈ open
      ∧ ∀ name, name ∈ names →
          ¬ (isdigit (first_char name) = true
             ∧ from_fd + 2 ≤ strtol name ∧ strtol name = fd).
Proof.
  induction names as [|name names IH]; intros open fd; cbn [foldl].
  - split; [intros H; split; [exact H | intros ? Hin; inversion Hin] | tauto].
  - rewrite IH. unfold sweep_entry at 1, close.
    split.
    + intros [Hfd Hrest]. 
      destruct (isdigit (first_char name)) eqn:Hd;
        [destruct (Z.leb_spec (from_fd + 2) (strtol name))|]; cbn [andb] in Hfd.
      * apply elem_of_difference in Hfd as [Hfd Hne].
        split; [exact Hfd|]. intros n Hn.
        apply elem_of_cons in Hn as [->|Hn]; [|apply Hrest; exact Hn].
        intros (_ & _ & Heq). apply Hne, elem_of_singleton. congruence.
      * split; [exact Hfd|]. intros n Hn.
        apply elem_of_cons in Hn as [->|Hn]; [|apply Hrest; exact Hn].
        intros (_ & Hle & _). lia.
      * split; [exact Hfd|]. intros n Hn.
        apply elem_of_cons in Hn as [->|Hn]; [|apply Hrest; exact Hn].
        intros (Hdig & _ & _). congruence.
    + intros [Hfd Hall]. split.
      * destruct (isdigit (first_char name) && (from_fd + 2 <=? strtol name))
          eqn:Hc; [|exact Hfd].
        apply andb_true_iff in Hc as [Hd Hle]. apply Z.leb_le in Hle.
        apply elem_of_difference. split; [exact Hfd|].
        intros Heq%elem_of_singleton.
        apply (Hall name); [left | auto].
      * intros n Hn. apply Hall. right. exact Hn.
Qed.

Lemma foldl_close (fds : list Z) :
  ∀ (open : gset Z) (fd : Z),
    fd ∈ foldl (λ t fd, close fd t) open fds ↔ fd ∈ open ∧ fd ∉ fds.
Proof.
  induction fds as [|x fds IH]; intros open fd; cbn [foldl].
  - split; [intros H; split; [exact H | intros Hin; inversion Hin] | tauto].
  - rewrite IH. unfold close. rewrite elem_of_difference, elem_of_singleton.
    rewrite not_elem_of_cons. tauto.
Qed.

(** The directory scan leaves exactly the descriptors up to [FAIL_FILENO]
    that were open before it. *)
Lemma close_all_descriptors_scan (open : gset Z) (fd : Z) :
  (close_all_descriptors true open).1 = true
  ∧ (fd ∈ (close_all_descriptors true open).2 ↔ fd ∈ open ∧ fd ≤ FAIL_FILENO).
Proof.
  split; [reflexivity|].
  unfold close_all_descriptors. cbn [negb snd].
  set (from_fd := FAIL_FILENO + 1).
  set (open2 := close (from_fd + 1) (close from_fd open)).
  pose proof (lowest_free_fresh open2) as Hdp.
  set (dp := lowest_free open2) in *.
  assert (Hopen2 : ∀ x, x ∈ open2 ↔ x ∈ open ∧ x ≠ 4 ∧ x ≠ 5).
  { intros x. unfold open2, close, from_fd, FAIL_FILENO, STDERR_FILENO.
    rewrite !elem_of_difference, !elem_of_singleton. cbn. tauto. }
  unfold close at 1. rewrite elem_of_difference, elem_of_singleton.
  rewrite foldl_sweep_entry, elem_of_union, elem_of_singleton.
  unfold from_fd, FAIL_FILENO, STDERR_FILENO in *. cbn in *.
  split.
  - intros [[[->|Hfd] Hnames] Hne]; [congruence|].
    apply Hopen2 in Hfd as Hfd'. destruct Hfd' as (Hin & H4 & H5).
    split; [exact Hin|].
    destruct (Z.le_gt_cases fd 3) as [|Hbig]; [assumption|]. exfalso.
    destruct (strtol_pretty fd) as [Hd Hs]; [lia|].
    apply (Hnames (pretty fd)); [|split; [exact Hd | lia]].
    unfold fd_dir_entries. do 2 right.
    apply list_elem_of_fmap. exists fd. split; [reflexivity|].
    apply elem_of_elements, elem_of_union. right. exact Hfd.
  - intros [Hin Hle].
    assert (Hfd : fd ∈ open2) by (apply Hopen2; split; [exact Hin | lia]).
    split; [split; [right; exact Hfd|] | congruence].
    intros name _ (_ & Hlo & Heq). lia.
Qed.

(** C3 (as stated, refuted).  Descriptor 3 is above the highest standard
    stream index and stays open through the sweep, with the directory scan
    as well as with the fallback loop. *)
Lemma sweep_spares_fail_fileno :
  2 < 3
  ∧ 3 ∈ (list_to_set [0; 1; 2; 3; 4; 7] : gset Z)
  ∧ 3 ∈ sweep true 1024 (list_to_set [0; 1; 2; 3; 4; 7])
  ∧ 3 ∈ sweep false 1024 (list_to_set [0; 1; 2; 3; 4; 7]).
Proof.
  split; [lia|]. repeat split; apply (bool_decide_unpack _); vm_compute; exact I.
Qed.

(** C3 (amended).  The sweep closes every open descriptor above
    [FAIL_FILENO], that is above 3, and no other one: afterwards the open
    descriptors are exactly those among 0..3 (the three standard ones and
    [FAIL_FILENO]) that were open before.  This holds for the directory
    scan and, all descriptors being below [sysconf(_SC_OPEN_MAX)], for the
    fallback loop; the two scratch descriptors 4 and 5 end up closed. *)
Theorem sweep_closes_above_fail_fileno
    (opendir_ok : bool) (max_fd : Z) (open : gset Z) (fd : Z) :
  (∀ x, x ∈ open → x < max_fd) →
  fd ∈ sweep opendir_ok max_fd open ↔ fd ∈ open ∧ fd ≤ FAIL_FILENO.
Proof.
  intros Hmax. unfold sweep. destruct opendir_ok.
  - pose proof (close_all_descriptors_scan open fd) as [Hok Hscan].
    destruct (close_all_descriptors true open) as [ok open'].
    cbn [fst snd] in *. subst ok. exact Hscan.
  - unfold close_all_descriptors. cbn [negb].
    rewrite foldl_close, elem_of_seqZ. unfold close.
    rewrite !elem_of_difference, !elem_of_singleton.
    unfold FAIL_FILENO, STDERR_FILENO. cbn.
    split.
    + intros [[[Hin _] _] Hout]. split; [exact Hin|].
      specialize (Hmax fd Hin). lia.
    + intros [Hin Hle]. repeat split; [exact Hin | lia ..].
Qed.

Lemma sweep_closes_above_fail_fileno_witness :
  (7 ∈ sweep false 1024 (list_to_set [0; 1; 2; 3; 4; 7])
   ↔ 7 ∈ (list_to_set [0; 1; 2; 3; 4; 7] : gset Z) ∧ 7 ≤ FAIL_FILENO)
  ∧ (2 ∈ sweep true 1024 (list_to_set [0; 1; 2; 3; 4; 7])
     ↔ 2 ∈ (list_to_set [0; 1; 2; 3; 4; 7] : gset Z) ∧ 2 ≤ FAIL_FILENO).
Proof.
  split; apply sweep_closes_above_fail_fileno;
    intros x Hx; apply (bool_decide_unpack _) ; revert x Hx;
    apply (set_Forall_list_to_set (λ x, bool_decide (x < 1024)));
    repeat constructor.
Defined.

End sweeper_props.

(** * Properties of the image replacement adapter *)

Section adapter_props.

Import Resolver Adapter.

Variable execve : string → list string → list string → option Z.
Variable execvp : string → list string → option Z.
Variable PATH_MAX : nat.
Variable malloc_ok : bool.
Variable environ : gmap string string.

Lemma read_vector_terminated (args : list string) (tl : vector) :
  read_vector ((Some <$> args) ++ None :: tl) = Some args.
Proof.
  induction args as [|a args IH]; [reflexivity|].
  cbn. cbn in IH. rewrite IH. reflexivity.
Qed.

Lemma find_end_terminated (args : list string) (tl : vector) :
  find_end ((Some <$> args) ++ None :: tl) = Some (length args).
Proof.
  induction args as [|a args IH]; [reflexivity|].
  cbn. cbn in IH. rewrite IH. reflexivity.
Qed.

Lemma take_terminated (args : list string) (tl : vector) :
  take (S (length args)) ((Some <$> args) ++ None :: tl)
  = (Some <$> args) ++ [None].
Proof.
  induction args as [|a args IH]; [reflexivity|].
  cbn. cbn in IH. rewrite IH. reflexivity.
Qed.

Lemma drop_terminated_spare (args : list string)
    (spare : option string) (tl : vector) :
  drop (S (S (length args))) ((Some <$> args) ++ None :: spare :: tl) = tl.
Proof.
  induction args as [|a args IH]; [reflexivity|].
  cbn. cbn in IH. rewrite IH. reflexivity.
Qed.

Lemma drop_args (args : list string) (tl : vector) :
  drop (length args) ((Some <$> args) ++ tl) = tl.
Proof.
  induction args as [|a args IH]; [reflexivity|].
  cbn. cbn in IH. rewrite IH. reflexivity.
Qed.

Lemma memmove_in_bounds {A} (v : list A) (dst src n : nat) :
  (src + S n ≤ length v)%nat → (dst + S n ≤ length v)%nat →
  memmove v dst src (S n)
  = Some (take dst v ++ take (S n) (drop src v) ++ drop (dst + S n) v).
Proof.
  intros Hs Hd. unfold memmove.
  rewrite decide_False by lia. rewrite decide_True by lia. reflexivity.
Qed.

Lemma memmove_out_of_bounds {A} (v : list A) (dst src n : nat) :
  (length v < dst + S n)%nat → memmove v dst src (S n) = None.
Proof.
  intros Hd. unfold memmove.
  rewrite decide_False by lia. rewrite decide_False by lia. reflexivity.
Qed.

(** With the extra slot behind the terminator, the shift is done in
    place: the interpreter is run on [file] followed by the arguments
    after [argv[0]], and when that fails the vector is put back, the extra
    slot now holding a second terminator. *)
Lemma execve_without_shebang_spare_slot
    (file a0 : string) (args : list string) (spare : option string)
    (tl : vector) (envp : list string) :
  execve_without_shebang execve file
    ((Some <$> a0 :: args) ++ None :: spare :: tl) envp
  = match execve "/bin/sh" ("/bin/sh" :: file :: args) envp with
    | None => Replaced "/bin/sh" ("/bin/sh" :: file :: args)
    | Some e => Returns (e, (Some <$> a0 :: args) ++ None :: None :: tl)
    end.
Proof.
  unfold execve_without_shebang.
  rewrite (find_end_terminated (a0 :: args)).
  cbn [fmap list_fmap app lookup list_lookup access mbind outcome_bind length].
  set (r := Some <$> args).
  assert (Hr : length r = length args) by apply length_fmap.
  rewrite memmove_in_bounds
    by (cbn [length]; rewrite length_app; cbn [length]; lia).
  cbn [take drop Nat.add].
  assert (Hy : ∃ y, take 1 (r ++ None :: spare :: tl) = [y])
    by (destruct r; eexists; reflexivity).
  destruct Hy as [y ->].
  rewrite drop_0. subst r.
  rewrite take_terminated.
  rewrite drop_terminated_spare.
  cbn [app access mbind outcome_bind].
  rewrite store_lt by (cbn; lia). cbn [insert list_insert access mbind outcome_bind].
  rewrite store_lt by (cbn; lia). cbn [insert list_insert access mbind outcome_bind].
  unfold do_execve.
  rewrite <- app_assoc. cbn [app].
  pose proof (read_vector_terminated ("/bin/sh" :: file :: args) tl) as Hread.
  cbn [fmap list_fmap app] in Hread. rewrite Hread.
  cbn [access mbind outcome_bind].
  destruct (execve "/bin/sh" ("/bin/sh" :: file :: args) envp) as [e|];
    [|reflexivity].
  cbn [mbind outcome_bind].
  rewrite memmove_in_bounds
    by (cbn [length]; rewrite length_app, length_fmap; cbn [length]; lia).
  cbn [take drop Nat.add].
  rewrite drop_0, take_terminated, drop_args.
  cbn [access mbind outcome_bind app].
  rewrite store_lt by (cbn; lia).
  cbn [insert list_insert access mbind outcome_bind].
  rewrite <- app_assoc. reflexivity.
Qed.

Lemma plain_bind {A B} (m : outcome A) (k : A → outcome B) :
  plain m → (∀ a, plain (k a)) → plain (m ≫= k).
Proof. destruct m; cbn; auto. Qed.

Lemma plain_access {A} (o : option A) : plain (access o).
Proof. destruct o; exact I. Qed.

Lemma plain_do_execve (file : string) (argv : vector) (envp : list string) :
  plain (do_execve execve file argv envp).
Proof.
  apply plain_bind; [apply plain_access|].
  intros args. destruct (execve file args envp); exact I.
Qed.

Lemma plain_execve_or_shebang (file : string) (argv : vector)
    (envp : list string) :
  plain (execve_or_shebang execve file argv envp).
Proof.
  apply plain_bind; [apply plain_do_execve|]. intros e.
  destruct (decide (e = ENOEXEC)); [|exact I].
  unfold execve_without_shebang.
  repeat (apply plain_bind;
          [first [apply plain_access | apply plain_do_execve]|intros ?]).
  exact I.
Qed.

Lemma plain_search_path (dirs : list string) (file : string)
    (envp : list string) :
  ∀ (argv : vector) (errno sticky : Z),
    plain (search_path execve PATH_MAX dirs file argv envp errno sticky).
Proof.
  induction dirs as [|dir dirs IH]; intros argv errno sticky; [exact I|].
  cbn [search_path]. destruct (decide _); [apply IH|].
  apply plain_bind.
  - apply plain_bind; [apply plain_access|].
    intros path. apply plain_execve_or_shebang.
  - intros [e argv']. repeat destruct (decide _); try apply IH.
    destruct (bool_decide _); [apply IH | exact I].
Qed.

Lemma plain_effective_pathv : plain (effective_pathv malloc_ok environ).
Proof.
  unfold effective_pathv, effective_pathv_block.
  destruct malloc_ok; cbn [negb]; [|exact I].
  destruct (memcpy_at _ _ _) as [copy|]; [|exact I].
  destruct (fill_pathv _ _) as [blk|]; [|exact I]. cbn [mbind outcome_bind].
  destruct (read_table _ _); exact I.
Qed.

Lemma plain_mpp_execvpe (errno : Z) (file : string) (argv : vector)
    (envp : envp_t) :
  plain (mpp_execvpe execve execvp PATH_MAX malloc_ok environ errno file
           argv envp).
Proof.
  destruct envp as [| |vars]; cbn [mpp_execvpe].
  1,2: apply plain_bind; [|intros ?; exact I].
  1,2: apply plain_bind; [apply plain_access|].
  1,2: intros args; destruct (execvp file args); exact I.
  destruct (decide _); [exact I|].
  destruct (has_slash file); [apply plain_execve_or_shebang|].
  apply plain_bind; [apply plain_effective_pathv|]. intros pathv.
  apply plain_bind; [apply plain_access|]. intros dirs.
  apply plain_search_path.
Qed.

(** C10.  With an environment vector of the caller's own and an empty
    command name, [mpp_execvpe] leaves ENOENT in errno and returns with
    [argv] untouched.  The result is the same for every behaviour of
    [execve] and [execvp], also one under which any attempt would replace
    the image: no attempt is made. *)
Theorem mpp_execvpe_empty_name (errno : Z) (argv : vector) (envp : envp_t) :
  envp ≠ EnvNull → envp ≠ EnvAmbient →
  mpp_execvpe execve execvp PATH_MAX malloc_ok environ errno "" argv envp
  = Returns (ENOENT, argv).
Proof.
  intros Hnull Hamb. destruct envp as [| |vars]; [congruence | congruence|].
  reflexivity.
Qed.

(** The search loop, one directory at a time. *)
Lemma search_path_too_long (dir : string) (rest : list string) (file : string)
    (argv : vector) (envp : list string) (errno sticky : Z) :
  (PATH_MAX ≤ strlen file + strlen dir + 2)%nat →
  search_path execve PATH_MAX (dir :: rest) file argv envp errno sticky
  = search_path execve PATH_MAX rest file argv envp ENAMETOOLONG sticky.
Proof. intros Hlong. cbn [search_path]. rewrite decide_True by exact Hlong. reflexivity. Qed.

Lemma search_path_try_next (dir : string) (rest : list string) (file : string)
    (argv argv' : vector) (envp : list string) (errno sticky e : Z) :
  (strlen file + strlen dir + 2 < PATH_MAX)%nat →
  try_candidate execve dir file argv envp = Returns (e, argv') →
  e ∈ try_others →
  search_path execve PATH_MAX (dir :: rest) file argv envp errno sticky
  = search_path execve PATH_MAX rest file argv' envp e
      (if decide (e = EACCES) then EACCES else sticky).
Proof.
  intros Hfits Htry He. cbn [search_path].
  rewrite decide_False by lia. rewrite Htry. cbn [mbind outcome_bind].
  destruct (decide (e = EACCES)) as [->|Hne]; [reflexivity|].
  rewrite bool_decide_eq_true_2; [reflexivity|].
  unfold try_others in He. apply elem_of_cons in He as [He|He]; [congruence | exact He].
Qed.






End adapter_props.

Lemma mpp_execvpe_empty_name_witness :
  Adapter.mpp_execvpe Sample.execve_any Sample.execvp_any 4096 true
    Sample.environ 0 "" Sample.argv (Adapter.EnvOwn ["LANG=C"])
  = Returns (ENOENT, Sample.argv).
Proof.
  apply (mpp_execvpe_empty_name Sample.execve_any Sample.execvp_any 4096
           true Sample.environ 0 Sample.argv (Adapter.EnvOwn ["LANG=C"]));
    discriminate.
Defined.




(** * Properties of the child launcher *)

Section launcher_props.

Import Resolver Adapter Sweeper Launcher.

(** The array [child_proc] hands to [mpp_execvpe] has no slot behind the
    terminator, so the shift of [execve_without_shebang] leaves it. *)
Lemma child_argv_shift_faults
    (execve : string → list string → list string → option Z)
    (startup : process_startup) (file : string) (envp : list string) :
  execve_without_shebang execve file (child_argv startup) envp = Fault.
Proof.
  unfold child_argv, execve_without_shebang.
  destruct (_cmdline startup) as [|a0 args]; [reflexivity|].
  rewrite (find_end_terminated (a0 :: args)).
  cbn [fmap list_fmap app lookup list_lookup access mbind outcome_bind length].
  rewrite memmove_out_of_bounds; [reflexivity|].
  cbn [length]. rewrite length_app, length_fmap. cbn [length]. lia.
Qed.

(** C4 (as the code behaves).  The array [child_proc] materializes has
    [asize + 1] slots, the last one holding the terminator, and no extra
    slot: the in-place shift of [execve_without_shebang] needs the slot of
    index [asize + 1] and runs out of the array, for every command line.
    So a child whose program is refused with ENOEXEC ends in an access
    outside [argv] instead of running the interpreter. *)
Theorem child_argv_has_no_spare_slot
    (execve : string → list string → list string → option Z)
    (execvp : string → list string → option Z)
    (PATH_MAX : nat) (malloc_ok : bool) (environ : gmap string string)
    (opendir_ok : bool) (open_max : Z)
    (startup : process_startup) (file : string) (envp : list string)
    (args : list string) (env : list (string * string)) (cwd : string)
    (rin rout rerr : redirect_info) (merge : bool)
    (pstdin pstdout pstderr : pipe) (open : gset Z) (errno : Z) :
  length (child_argv startup) = S (length (_cmdline startup))
  ∧ find_end (child_argv startup) = Some (length (_cmdline startup))
  ∧ execve_without_shebang execve file (child_argv startup) envp = Fault
  ∧ ending (child_proc (λ _ _ _, Some ENOEXEC) execvp PATH_MAX malloc_ok
              environ opendir_ok open_max (λ _, 0)
              (ProcessStartup ("/opt/tool.sh" :: args) env cwd rin rout rerr merge)
              pstdin pstdout pstderr open errno)
    = Fault.
Proof.
  split; [|split; [|split]].
  - unfold child_argv. rewrite length_app, length_fmap. cbn. lia.
  - apply find_end_terminated.
  - apply child_argv_shift_faults.
  - unfold child_proc. cbn [ending _cwd]. rewrite decide_False by (intros H; apply H; reflexivity).
    set (st := ProcessStartup _ _ _ _ _ _ _).
    assert (Hargv : child_argv st = (Some <$> "/opt/tool.sh" :: args) ++ [None])
      by reflexivity.
    rewrite Hargv at 1.
    cbn [fmap list_fmap app lookup list_lookup mjoin option_join access mbind outcome_bind].
    unfold mpp_execvpe. rewrite decide_False by discriminate.
    replace (has_slash "/opt/tool.sh") with true by (vm_compute; reflexivity).
    unfold execve_or_shebang, do_execve.
    rewrite Hargv at 1. rewrite read_vector_terminated.
    cbn [access mbind outcome_bind]. rewrite decide_True by reflexivity.
    rewrite child_argv_shift_faults. reflexivity.
Qed.

(** C8 (as stated, refuted).  A failing [chdir] does not terminate the
    child: [child_proc] raises [runtime_error], which unwinds into its
    caller.  A failing [dup2] is not even noticed: the child goes on and
    replaces its image. *)
Lemma child_proc_failure_not_fatal :
  let startup :=
    ProcessStartup ["/bin/true"] [] "/nonexistent"
      (RedirectInfo false) (RedirectInfo false) (RedirectInfo false) false in
  let run chdir :=
    child_proc (λ _ _ _, None) (λ _ _, None) 4096 true ∅ true 1024 chdir
      startup (mk_pipe 10 11) (mk_pipe 12 13) (mk_pipe 14 15)
      (list_to_set [0; 1; 2]) 0 in
  ending (run (λ _, -1))
    = Throws "unable to change current working directory"
  ∧ terminated (ending (run (λ _, -1))) = false
  ∧ dup2_ok 10 (foldl run_call (list_to_set [0; 1; 2])
                  [Close_fd 11; Close_fd 12]) = false
  ∧ ending (run (λ _, 0)) = Replaced "/bin/true" ["/bin/true"]
  ∧ terminated (ending (run (λ _, 0))) = false.
Proof. vm_compute. repeat split; reflexivity. Qed.

(** C8 (amended).  Once the working directory is changed, [child_proc]
    does not come back to its caller: the image is replaced, or the child
    leaves with exit status 1, or it stops on an access outside an array.
    In particular, whenever [mpp_execvpe] returns, every candidate being
    exhausted or the search given up, the child terminates with exit
    status 1. *)
Theorem child_proc_after_chdir
    (execve : string → list string → list string → option Z)
    (execvp : string → list string → option Z)
    (PATH_MAX : nat) (malloc_ok : bool) (environ : gmap string string)
    (opendir_ok : bool) (open_max : Z) (chdir : string → Z)
    (startup : process_startup) (pstdin pstdout pstderr : pipe)
    (open : gset Z) (errno : Z) :
  chdir (_cwd startup) = 0 →
  let r := child_proc execve execvp PATH_MAX malloc_ok environ opendir_ok
             open_max chdir startup pstdin pstdout pstderr open errno in
  match ending r with
  | Exited status => status = 1
  | Replaced _ _ | Fault => True
  | Returns _ | Throws _ => False
  end
  ∧ ∀ file e argv',
      child_argv startup !! 0%nat = Some (Some file) →
      mpp_execvpe execve execvp PATH_MAX malloc_ok environ errno file
        (child_argv startup) (EnvOwn (child_envp startup))
      = Returns (e, argv') →
      ending r = Exited 1.
Proof.
  intros Hchdir r. subst r. unfold child_proc. cbn [ending].
  rewrite decide_False by (intros H; apply H; exact Hchdir).
  split.
  - destruct (mjoin (child_argv startup !! 0%nat)) as [file|];
      cbn [access mbind outcome_bind]; [|exact I].
    pose proof (plain_mpp_execvpe execve execvp PATH_MAX malloc_ok environ
                  errno file (child_argv startup)
                  (EnvOwn (child_envp startup))) as Hplain.
    destruct (mpp_execvpe _ _ _ _ _ _ _ _ _) as [[e a]| | | |];
      cbn [mbind outcome_bind plain] in *; try exact I; try contradiction.
    reflexivity.
  - intros file e argv' Hfile Hexec. rewrite Hfile.
    cbn [mjoin option_join access mbind outcome_bind].
    rewrite Hexec. reflexivity.
Qed.

(** C9 (as stated, refuted).  With merge-outputs set and nothing
    redirected, the parent closes no end of the stderr pipe, and the child
    closes only its write end. *)
Lemma merged_stderr_pipe_not_closed :
  let startup :=
    ProcessStartup ["/bin/true"] [] "/"
      (RedirectInfo false) (RedirectInfo false) (RedirectInfo false) true in
  let pstdin := mk_pipe 10 11 in
  let pstdout := mk_pipe 12 13 in
  let pstderr := mk_pipe 14 15 in
  closed_fds (parent_pipes startup pstdin pstdout pstderr) = [10; 13]
  ∧ (pstderr PIPE_WRITE
       ∉ closed_fds (parent_pipes startup pstdin pstdout pstderr))
  ∧ closed_fds (child_pipes startup pstdin pstdout pstderr) = [11; 12; 10; 13; 15]
  ∧ (pstderr PIPE_READ
       ∉ closed_fds (child_pipes startup pstdin pstdout pstderr)).
Proof.
  cbv zeta. split; [reflexivity|]. split; [|split; [reflexivity|]].
  all: apply (bool_decide_unpack _); vm_compute; exact I.
Qed.

(** C9 (amended).  When the six pipe ends are distinct descriptors, no
    side closes an end more than once.  The child closes the write end of
    a stdin pipe and the read end of a stdout pipe that are not
    redirected, and after duplication the read end of stdin and the write
    ends of stdout and stderr; the parent closes the opposite end of each
    stdin and stdout pipe that is not redirected, and keeps the ends it
    hands out.  The stderr pipe is treated like the stdout pipe only when
    merge-outputs is not set: when it is set, the child does not close the
    read end and the parent does not close the write end. *)
Theorem pipe_ends_closed_once
    (startup : process_startup) (pstdin pstdout pstderr : pipe) :
  NoDup [pstdin PIPE_READ; pstdin PIPE_WRITE; pstdout PIPE_READ;
         pstdout PIPE_WRITE; pstderr PIPE_READ; pstderr PIPE_WRITE] →
  let child := times_closed (child_pipes startup pstdin pstdout pstderr) in
  let parent := times_closed (parent_pipes startup pstdin pstdout pstderr) in
  let piped (r : redirect_info) := Nat.b2n (negb (redirected r)) in
  let split_err :=
    Nat.b2n (negb (merge_outputs startup)
             && negb (redirected (_stderr startup)))%bool in
  (child (pstdin PIPE_WRITE) = piped (_stdin startup)
   ∧ child (pstdin PIPE_READ) = 1%nat
   ∧ child (pstdout PIPE_READ) = piped (_stdout startup)
   ∧ child (pstdout PIPE_WRITE) = 1%nat
   ∧ child (pstderr PIPE_READ) = split_err
   ∧ child (pstderr PIPE_WRITE) = 1%nat)
  ∧ (parent (pstdin PIPE_READ) = piped (_stdin startup)
     ∧ parent (pstdin PIPE_WRITE) = 0%nat
     ∧ parent (pstdout PIPE_WRITE) = piped (_stdout startup)
     ∧ parent (pstdout PIPE_READ) = 0%nat
     ∧ parent (pstderr PIPE_WRITE) = split_err
     ∧ parent (pstderr PIPE_READ) = 0%nat).
Proof.
  intros Hnd. cbv zeta.
  unfold times_closed, child_pipes, parent_pipes.
  set (ir := pstdin PIPE_READ) in *. set (iw := pstdin PIPE_WRITE) in *.
  set (or := pstdout PIPE_READ) in *. set (ow := pstdout PIPE_WRITE) in *.
  set (er := pstderr PIPE_READ) in *. set (ew := pstderr PIPE_WRITE) in *.
  clearbody ir iw or ow er ew.
  assert (Hne : ir ≠ iw ∧ ir ≠ or ∧ ir ≠ ow ∧ ir ≠ er ∧ ir ≠ ew
                ∧ iw ≠ or ∧ iw ≠ ow ∧ iw ≠ er ∧ iw ≠ ew
                ∧ or ≠ ow ∧ or ≠ er ∧ or ≠ ew
                ∧ ow ≠ er ∧ ow ≠ ew ∧ er ≠ ew).
  { repeat (apply NoDup_cons in Hnd as [? Hnd]).
    repeat match goal with
           | H : _ ∉ _ :: _ |- _ => apply not_elem_of_cons in H as [? ?]
           end.
    repeat split; assumption. }
  clear Hnd. destruct Hne as (?&?&?&?&?&?&?&?&?&?&?&?&?&?&?).
  destruct startup as [cmdline env cwd [rin] [rout] [rerr] merge].
  cbn [_stdin _stdout _stderr merge_outputs redirected].
  destruct rin, rout, rerr, merge;
    cbn [negb andb when app closed_fds omap list_omap Nat.b2n];
    repeat split;
    repeat first [ rewrite filter_cons_True by reflexivity
                 | rewrite filter_cons_False by congruence ];
    reflexivity.
Qed.

Lemma pipe_ends_closed_once_witness :
  let startup :=
    ProcessStartup ["/bin/true"] [] "/"
      (RedirectInfo false) (RedirectInfo false) (RedirectInfo false) false in
  let pstdin := mk_pipe 10 11 in
  let pstdout := mk_pipe 12 13 in
  let pstderr := mk_pipe 14 15 in
  let child := times_closed (child_pipes startup pstdin pstdout pstderr) in
  let parent := times_closed (parent_pipes startup pstdin pstdout pstderr) in
  (child 11 = 1%nat ∧ child 10 = 1%nat ∧ child 12 = 1%nat
   ∧ child 13 = 1%nat ∧ child 14 = 1%nat ∧ child 15 = 1%nat)
  ∧ (parent 10 = 1%nat ∧ parent 11 = 0%nat ∧ parent 13 = 1%nat
     ∧ parent 12 = 0%nat ∧ parent 15 = 1%nat ∧ parent 14 = 0%nat).
Proof.
  apply (pipe_ends_closed_once
           (ProcessStartup ["/bin/true"] [] "/"
              (RedirectInfo false) (RedirectInfo false) (RedirectInfo false)
              false)
           (mk_pipe 10 11) (mk_pipe 12 13) (mk_pipe 14 15)).
  apply (bool_decide_unpack _). vm_compute. exact I.
Defined.

End launcher_props.

Lemma child_proc_after_chdir_witness :
  Launcher.ending
    (Launcher.child_proc Sample.execve Sample.execvp_any 4096 true
       Sample.environ true 1024 (λ _, 0) Sample.startup_direct
       (Launcher.mk_pipe 10 11) (Launcher.mk_pipe 12 13)
       (Launcher.mk_pipe 14 15) (list_to_set [0; 1; 2; 10; 11; 12; 13; 14; 15])
       0)
  = Exited 1.
Proof.
  refine (proj2 (child_proc_after_chdir Sample.execve Sample.execvp_any 4096
                   true Sample.environ true 1024 (λ _, 0)
                   Sample.startup_direct
                   (Launcher.mk_pipe 10 11) (Launcher.mk_pipe 12 13)
                   (Launcher.mk_pipe 14 15)
                   (list_to_set [0; 1; 2; 10; 11; 12; 13; 14; 15]) 0 eq_refl)
            "/usr/bin/tool" ENOENT
            (Launcher.child_argv Sample.startup_direct) eq_refl eq_refl).
Defined.

(** * Further properties of the process supervisor *)

Section supervisor_more.

Import Supervisor.

Lemma WTERMSIG_range (status : Z) : 0 ≤ WTERMSIG status ≤ 127.
Proof.
  unfold WTERMSIG. change 0x7f with (Z.ones 7).
  rewrite Z.land_ones by lia.
  change (Z.ones 7) with 127. change (2 ^ 7) with 128.
  pose proof (Z.mod_pos_bound status 128). lia.
Qed.

Lemma WEXITSTATUS_range (status : Z) : 0 ≤ WEXITSTATUS status ≤ 255.
Proof.
  unfold WEXITSTATUS. rewrite Z.shiftr_land.
  change (Z.shiftr 0xff00 8) with (Z.ones 8).
  rewrite Z.land_ones by lia.
  change (2 ^ 8) with 256.
  pose proof (Z.mod_pos_bound (Z.shiftr status 8) 256). lia.
Qed.

(** Whether a status counts as "killed by a signal" depends on its low
    seven bits only, and then these are a signal number from 1 to 126. *)
Lemma WIFSIGNALED_termsig (status : Z) :
  WIFSIGNALED status = true → 1 ≤ WTERMSIG status ≤ 126.
Proof.
  unfold WIFSIGNALED. fold (WTERMSIG status).
  pose proof (WTERMSIG_range status) as Hr. revert Hr.
  generalize (WTERMSIG status). intros t Ht Hsig.
  pose proof (range_check
                (λ t, implb (0 <? Z.shiftr (signed_char (t + 1)) 1)
                            ((1 <=? t) && (t <=? 126))) 0 128) as Hcheck.
  specialize (Hcheck ltac:(vm_compute; reflexivity) t ltac:(lia)).
  cbn beta in Hcheck. rewrite Hsig in Hcheck. cbn [implb] in Hcheck.
  apply andb_true_iff in Hcheck as [H1 H2]. lia.
Qed.

Lemma exit_outcome_nonneg (status : Z) : 0 ≤ status → 0 ≤ exit_outcome status.
Proof.
  intros Hs. unfold exit_outcome.
  destruct (WIFEXITED status); [apply WEXITSTATUS_range|].
  destruct (WIFSIGNALED status); [|exact Hs].
  pose proof (WTERMSIG_range status). lia.
Qed.

(** X1.  The outcome of [wait_for] fits in a byte whenever the status
    says that the child exited or was killed by a signal, whatever the
    other bits of the status word are: an exit gives 0..255 and a signal
    gives 129..254. *)
Theorem exit_outcome_byte (status : Z) :
  WIFEXITED status = true ∨ WIFSIGNALED status = true →
  0 ≤ exit_outcome status ≤ 255
  ∧ (WIFEXITED status = false → 129 ≤ exit_outcome status ≤ 254).
Proof.
  intros Hkind. unfold exit_outcome.
  destruct (WIFEXITED status) eqn:Hex.
  - split; [apply WEXITSTATUS_range | discriminate].
  - destruct Hkind as [|Hsig]; [discriminate|]. rewrite Hsig.
    pose proof (WIFSIGNALED_termsig status Hsig). lia.
Qed.

Lemma exit_outcome_byte_witness :
  0 ≤ exit_outcome (status_of_signal 11 true) ≤ 255
  ∧ (WIFEXITED (status_of_signal 11 true) = false →
     129 ≤ exit_outcome (status_of_signal 11 true) ≤ 254).
Proof.
  apply (exit_outcome_byte (status_of_signal 11 true)).
  right. vm_compute. reflexivity.
Defined.

(** X2.  The encoding does not tell an exit code above 128 from a death
    by signal: a child that exits with code [128 + S] and a child killed
    by signal [S] give [wait_for] the same outcome. *)
Theorem exit_code_signal_collision (pid S : Z) (core : bool) :
  0 < pid → 1 ≤ S ≤ 126 →
  wait_for [collected pid (status_of_exit (128 + S))]
  = wait_for [collected pid (status_of_signal S core)]
  ∧ status_of_exit (128 + S) ≠ status_of_signal S core.
Proof.
  intros Hpid HS. cbn [wait_for collected wp_ret wp_status].
  destruct (Z.ltb_spec pid 0) as [|_]; [lia|].
  pose proof (range_check
                (λ s, (exit_outcome (status_of_exit (128 + s))
                       =? exit_outcome (status_of_signal s core))
                      && negb (status_of_exit (128 + s)
                               =? status_of_signal s core)) 1 126) as Hcheck.
  specialize (Hcheck ltac:(destruct core; vm_compute; reflexivity) S ltac:(lia)).
  cbn beta in Hcheck. apply andb_true_iff in Hcheck as [Heq Hne].
  apply Z.eqb_eq in Heq. apply negb_true_iff, Z.eqb_neq in Hne.
  split; [f_equal; exact Heq | exact Hne].
Qed.

Lemma exit_code_signal_collision_witness :
  wait_for [collected 4242 (status_of_exit (128 + 9))]
  = wait_for [collected 4242 (status_of_signal 9 false)]
  ∧ status_of_exit (128 + 9) ≠ status_of_signal 9 false.
Proof. apply (exit_code_signal_collision 4242 9 false); lia. Defined.

(** X3.  With non-negative status words, [wait_for] gives -1 exactly when,
    after interrupted calls only, [waitpid] fails with an errno other than
    ECHILD and EINTR: -1 always means an error of the OS call, never an
    exit status. *)
Theorem wait_for_minus_one (os : list waitpid_reply) :
  (∀ r, r ∈ os → 0 ≤ wp_status r) →
  wait_for os = Some (-1)
  ↔ ∃ pre r post,
      os = pre ++ r :: post
      ∧ Forall (λ x, wp_ret x < 0 ∧ wp_errno x = EINTR) pre
      ∧ wp_ret r < 0 ∧ wp_errno r ≠ ECHILD ∧ wp_errno r ≠ EINTR.
Proof.
  induction os as [|x os IH]; intros Hstat.
  - split; [discriminate|]. intros (pre & r & post & Hos & _).
    destruct pre; discriminate.
  - cbn [wait_for].
    assert (Hrest : ∀ r, r ∈ os → 0 ≤ wp_status r)
      by (intros r Hr; apply Hstat; right; exact Hr).
    destruct (Z.ltb_spec (wp_ret x) 0) as [Hneg|Hpos].
    + destruct (Z.eqb_spec (wp_errno x) ECHILD) as [Hch|Hch].
      * split; [discriminate|]. intros (pre & r & post & Hos & Hpre & Hr).
        destruct pre as [|y pre]; cbn in Hos; injection Hos as -> ->.
        -- tauto.
        -- apply Forall_inv in Hpre as [_ He]. rewrite He in Hch. discriminate.
      * destruct (Z.eqb_spec (wp_errno x) EINTR) as [Hint|Hint].
        -- rewrite (IH Hrest). split.
           ++ intros (pre & r & post & -> & Hpre & Hr).
              exists (x :: pre), r, post. split; [reflexivity|].
              split; [constructor; auto | exact Hr].
           ++ intros (pre & r & post & Hos & Hpre & Hr).
              destruct pre as [|y pre]; cbn in Hos; injection Hos as -> ->.
              ** tauto.
              ** exists pre, r, post. split; [reflexivity|].
                 split; [eapply Forall_inv_tail; exact Hpre | exact Hr].
        -- split; [|reflexivity]. intros _.
           exists [], x, os. repeat split; auto.
    + split.
      * intros [= Hout].
        pose proof (exit_outcome_nonneg (wp_status x)
                      (Hstat x ltac:(left))). lia.
      * intros (pre & r & post & Hos & Hpre & Hr).
        destruct pre as [|y pre]; cbn in Hos; injection Hos as -> ->.
        -- lia.
        -- apply Forall_inv in Hpre as [Hy _]. lia.
Qed.

Lemma wait_for_minus_one_witness :
  wait_for [interrupted; WaitpidReply (-1) 22 0] = Some (-1)
  ↔ ∃ pre r post,
      [interrupted; WaitpidReply (-1) 22 0] = pre ++ r :: post
      ∧ Forall (λ x, wp_ret x < 0 ∧ wp_errno x = EINTR) pre
      ∧ wp_ret r < 0 ∧ wp_errno r ≠ ECHILD ∧ wp_errno r ≠ EINTR.
Proof.
  apply (wait_for_minus_one [interrupted; WaitpidReply (-1) 22 0]).
  intros r Hr.
  apply elem_of_cons in Hr as [->|Hr]; [cbn; lia|].
  apply elem_of_cons in Hr as [->|Hr]; [cbn; lia | inversion Hr].
Defined.

(** X4.  [process_exited] raises its "should not reach here" error exactly
    when the non-blocking [waitpid] returns -1 and either errno is not
    ECHILD or [sigaction] fails; in every other case it returns a
    boolean. *)
Theorem process_exited_throws (pid : Z) (os : poll_os) :
  (process_exited pid os = Throws "should not reach here"
   ↔ wp_ret (waitpid_nohang os) = -1
     ∧ (wp_errno (waitpid_nohang os) ≠ ECHILD ∨ sigaction_ret os ≠ 0))
  ∧ (process_exited pid os ≠ Throws "should not reach here"
     ↔ ∃ b, process_exited pid os = Returns b).
Proof.
  unfold process_exited.
  destruct (Z.eqb_spec (wp_ret (waitpid_nohang os)) (-1)) as [Hret|Hret].
  2:{ split; split; try discriminate; try (intros [? _]; contradiction).
      - intros _. eexists; reflexivity. }
  destruct (Z.eqb_spec (wp_errno (waitpid_nohang os)) ECHILD) as [He|He];
    cbn [negb].
  2:{ split; split; auto.
      - intros H; exfalso; apply H; reflexivity.
      - intros [b Hb]; discriminate. }
  destruct (Z.eqb_spec (sigaction_ret os) 0) as [Hs|Hs]; cbn [negb].
  2:{ split; split; auto.
      - intros H; exfalso; apply H; reflexivity.
      - intros [b Hb]; discriminate. }
  destruct (is_SIG_IGN (sa_handler os)); [destruct (stat_path os _)|].
  all: split; split; try discriminate; try (intros _; eexists; reflexivity).
  all: intros [_ [H|H]]; contradiction.
Qed.

(** X5.  When [waitpid] says "no such child" and [sigaction] succeeds:
    with SIGCHLD not ignored the child is reported as exited without
    looking at [/proc]; with SIGCHLD ignored it is reported as exited
    exactly when [stat] on [/proc/<pid>], the pid in decimal, fails with
    ENOENT. *)
Theorem process_exited_fallback
    (pid status : Z) (h : sighandler) (stat : string → Z * Z) :
  let os := PollOs (WaitpidReply (-1) ECHILD status) 0 h stat in
  (h ≠ SIG_IGN → process_exited pid os = Returns true)
  ∧ (h = SIG_IGN →
     ∀ b, process_exited pid os = Returns b
          ↔ b = bool_decide (stat ("/proc/" +:+ pretty pid) = (-1, ENOENT))).
Proof.
  cbv zeta. rewrite process_exited_no_such_child. split.
  - intros Hh. destruct h; [reflexivity | congruence | reflexivity].
  - intros -> b. cbn [is_SIG_IGN]. unfold to_string.
    destruct (stat _) as [r e]. cbn [fst snd].
    assert (Hb : ((r =? -1) && (e =? ENOENT))
                 = bool_decide ((r, e) = (-1, ENOENT))).
    { destruct (Z.eqb_spec r (-1)) as [->|Hr];
        [destruct (Z.eqb_spec e ENOENT) as [->|He]|]; cbn [andb].
      - rewrite bool_decide_eq_true_2; reflexivity.
      - rewrite bool_decide_eq_false_2; [reflexivity | congruence].
      - rewrite bool_decide_eq_false_2; [reflexivity | congruence]. }
    rewrite Hb. split; [intros [= <-]; reflexivity | intros ->; reflexivity].
Qed.

Lemma process_exited_fallback_witness :
  process_exited 4242
    (PollOs (WaitpidReply (-1) ECHILD 0) 0 (Handler 4096) (λ _, (0, 0)))
  = Returns true
  ∧ (process_exited 4242
       (PollOs (WaitpidReply (-1) ECHILD 0) 0 SIG_IGN (λ _, (-1, EACCES)))
     = Returns false
     ↔ false = bool_decide ((-1, EACCES) = (-1, ENOENT))).
Proof.
  split.
  - refine (proj1 (process_exited_fallback 4242 0 (Handler 4096)
                     (λ _, (0, 0))) _).
    discriminate.
  - refine (proj2 (process_exited_fallback 4242 0 SIG_IGN
                     (λ _, (-1, EACCES))) eq_refl false).
Defined.

End supervisor_more.

(** * Further properties of the descriptor sweeper *)

Section sweeper_more.

Import Sweeper.

Lemma sweep_members (opendir_ok : bool) (max_fd : Z) (open : gset Z) (fd : Z) :
  fd ∈ sweep opendir_ok max_fd open
  ↔ fd ∈ open
    ∧ (fd ≤ FAIL_FILENO
       ∨ (opendir_ok = false ∧ FAIL_FILENO + 3 ≤ fd ∧ max_fd ≤ fd)).
Proof.
  unfold sweep. destruct opendir_ok.
  - pose proof (close_all_descriptors_scan open fd) as [Hok Hscan].
    destruct (close_all_descriptors true open) as [ok open'].
    cbn [fst snd] in *. subst ok. cbn [negb]. rewrite Hscan.
    split; [intros [? ?]; auto | intros [? [?|[? _]]]; [auto | discriminate]].
  - unfold close_all_descriptors. cbn [negb].
    rewrite foldl_close, elem_of_seqZ. unfold close.
    rewrite !elem_of_difference, !elem_of_singleton.
    unfold FAIL_FILENO, STDERR_FILENO. split.
    + intros [[[Hin H4] H5] Hout]. split; [exact Hin | lia].
    + intros [Hin Hcase]. repeat split; [exact Hin | lia ..].
Qed.

(** X6.  The sweep never opens a descriptor and closes exactly these:
    with the directory scan every descriptor above [FAIL_FILENO]; with the
    fallback loop the descriptors 4 and 5 and those from 4 up to, and not
    including, [sysconf(_SC_OPEN_MAX)].  So when [opendir] fails, a
    descriptor at or above that limit stays open, and when [sysconf] fails
    too (it returns -1) only 4 and 5 are closed. *)
Theorem sweep_exact (opendir_ok : bool) (max_fd : Z) (open : gset Z) (fd : Z) :
  fd ∈ sweep opendir_ok max_fd open
  ↔ fd ∈ open
    ∧ (fd ≤ FAIL_FILENO
       ∨ (opendir_ok = false ∧ FAIL_FILENO + 3 ≤ fd ∧ max_fd ≤ fd)).
Proof. apply sweep_members. Qed.

End sweeper_more.

(** * Further properties of the executable resolver *)

Section resolver_more.

Import Resolver.

Lemma split_colon_cons (s : string) :
  ∃ seg segs, split_colon s = seg :: segs.
Proof.
  induction s as [|c s (seg & segs & IH)]; cbn [split_colon]; [eauto|].
  destruct (decide (c = colon)); [eauto|]. rewrite IH. eauto.
Qed.

Lemma join_split_colon (s : string) : join_colon (split_colon s) = s.
Proof.
  induction s as [|c s IH]; [reflexivity|]. cbn [split_colon].
  destruct (split_colon_cons s) as (seg & segs & Hs). rewrite Hs in *.
  destruct (decide (c = colon)) as [->|Hc].
  - cbn [join_colon]. cbn [join_colon] in IH. rewrite IH. reflexivity.
  - cbn [join_colon] in *. destruct segs as [|seg' segs].
    + rewrite IH. reflexivity.
    + change (String c seg +:+ ":" +:+ join_colon (seg' :: segs))
        with (String c (seg +:+ ":" +:+ join_colon (seg' :: segs))).
      rewrite IH. reflexivity.
Qed.

Lemma split_colon_segments (s : string) :
  NUL ∉ chars s → Forall segment (split_colon s).
Proof.
  induction s as [|c s IH]; intros Hnul.
  - repeat constructor; intros H; inversion H.
  - assert (Hc : c ≠ NUL) by (intros ->; apply Hnul; left).
    assert (Hs : NUL ∉ chars s) by (intros H; apply Hnul; right; exact H).
    specialize (IH Hs). cbn [split_colon].
    destruct (decide (c = colon)) as [->|Hcolon].
    + constructor; [|exact IH]. split; intros H; inversion H.
    + destruct (split_colon s) as [|seg segs];
        [repeat constructor; intros H; apply elem_of_cons in H as [H|H];
         [congruence | inversion H | congruence | inversion H]|].
      inversion IH as [|? ? [Hseg1 Hseg2] Hrest]; subst.
      constructor; [|exact Hrest].
      split; intros H; apply elem_of_cons in H as [H|H]; auto.
Qed.

Lemma directory_of_nonempty (s : string) : directory_of s ≠ "".
Proof. unfold directory_of. destruct (decide (s = "")); [discriminate | assumption]. Qed.

(** X7.  The splitting of [effective_pathv] (the loop and the terminator
    of the table), run on a writable buffer that holds a PATH value
    without NUL and its terminator, fills a table of one slot per piece
    and a last slot holding [nullptr]: read back, the table gives the
    pieces between the colons of the value, in order, an empty piece
    replaced by ["."].  There is one directory more than there are colons
    and no directory is the empty string. *)
Theorem fill_pathv_pieces (path : string) :
  NUL ∉ chars path →
  let pieces := split_colon path in
  join_colon pieces = path
  ∧ length pieces = S (count colon path)
  ∧ Forall (λ dir, dir ≠ "") (directory_of <$> pieces)
  ∧ ∃ blk,
      fill_pathv (count colon path + 1) (chars path ++ [NUL]) = Some blk
      ∧ length (pathv_table blk) = S (length pieces)
      ∧ pathv_table blk !! length pieces = Some None
      ∧ read_table (pathv_copy blk) (pathv_table blk)
        = Some (directory_of <$> pieces).
Proof.
  intros Hnul pieces. subst pieces.
  pose proof (join_split_colon path) as Hjoin.
  pose proof (split_colon_segments _ Hnul) as Hsegs.
  destruct (split_colon_cons path) as (seg & segs & Hs).
  rewrite Hs in *.
  assert (Hcount : count colon path = length segs)
    by (rewrite <- Hjoin; apply count_join_colon; exact Hsegs).
  pose proof (length_entries 0 (seg :: segs)) as Hlen.
  split; [exact Hjoin|]. split; [rewrite Hcount; reflexivity|].
  split; [apply Forall_fmap, Forall_forall; intros x _;
          apply directory_of_nonempty|].
  eexists. split; [|split; [|split]].
  - rewrite Hcount, <- Hjoin.
    replace (length segs + 1)%nat with (length (seg :: segs)) by (cbn; lia).
    apply fill_pathv_join. exact Hsegs.
  - cbn [pathv_table]. rewrite length_app, Hlen. cbn. lia.
  - cbn [pathv_table]. rewrite lookup_app_r by (rewrite Hlen; lia).
    rewrite Hlen, Nat.sub_diag. reflexivity.
  - cbn [pathv_copy pathv_table].
    pose proof (read_entries (seg :: segs) [] [] Hsegs) as Hread.
    cbn [app length] in Hread. exact Hread.
Qed.

Lemma fill_pathv_pieces_witness :
  let pieces := split_colon "/opt/bin::/usr/bin" in
  join_colon pieces = "/opt/bin::/usr/bin"
  ∧ length pieces = 3%nat
  ∧ Forall (λ dir, dir ≠ "") (directory_of <$> pieces)
  ∧ ∃ blk,
      fill_pathv 3 (chars "/opt/bin::/usr/bin" ++ [NUL]) = Some blk
      ∧ length (pathv_table blk) = 4%nat
      ∧ pathv_table blk !! 3%nat = Some None
      ∧ read_table (pathv_copy blk) (pathv_table blk)
        = Some (directory_of <$> pieces).
Proof.
  assert (Hnul : NUL ∉ chars "/opt/bin::/usr/bin")
    by (apply (bool_decide_unpack _); vm_compute; exact I).
  exact (fill_pathv_pieces "/opt/bin::/usr/bin" Hnul).
Defined.

End resolver_more.

(** * Further properties of the image replacement adapter *)

Section adapter_more.

Import Resolver Adapter.

Variable execve : string → list string → list string → option Z.
Variable execvp : string → list string → option Z.
Variable PATH_MAX : nat.
Variable environ : gmap string string.

Lemma strlen_app (a b : string) : strlen (a +:+ b) = (strlen a + strlen b)%nat.
Proof. rewrite !strlen_chars, chars_app. apply length_app. Qed.

(** X9.  When [malloc] fails in [effective_pathv], the search for a bare
    name reads through the null pointer it got back: the call ends in an
    invalid access, without any attempt to execute. *)
Theorem mpp_execvpe_malloc_failure
    (errno : Z) (file : string) (argv : vector) (vars : list string) :
  file ≠ "" → has_slash file = false →
  effective_pathv false environ = Returns None
  ∧ mpp_execvpe execve execvp PATH_MAX false environ errno file argv
      (EnvOwn vars)
    = Fault.
Proof.
  intros Hfile Hslash.
  assert (Hnull : effective_pathv false environ = Returns None) by reflexivity.
  split; [exact Hnull|].
  unfold mpp_execvpe. rewrite decide_False by exact Hfile.
  rewrite Hslash, Hnull. reflexivity.
Qed.

(** X10.  Given a vector with one more slot behind its terminator,
    [execve_without_shebang] runs [/bin/sh] on the vector [/bin/sh],
    [file], then the arguments after [argv[0]]: the original [argv[0]] is
    not passed on.  When that fails too, the errno is the one of this
    second attempt and the vector is as before up to its terminator, the
    extra slot now holding [nullptr]. *)
Theorem shebang_shift_in_place
    (file a0 : string) (args : list string) (spare : option string)
    (tl : vector) (envp : list string) :
  execve_without_shebang execve file
    ((Some <$> a0 :: args) ++ None :: spare :: tl) envp
  = match execve "/bin/sh" ("/bin/sh" :: file :: args) envp with
    | None => Replaced "/bin/sh" ("/bin/sh" :: file :: args)
    | Some e => Returns (e, (Some <$> a0 :: args) ++ None :: None :: tl)
    end.
Proof. apply execve_without_shebang_spare_slot. Qed.

(** X11.  On a vector whose extra slot holds [nullptr],
    [execve_or_shebang] either replaces the image or returns with the
    vector exactly as it was.  The interpreter is tried only after
    ENOEXEC, and then the errno left is the interpreter's, not ENOEXEC. *)
Theorem execve_or_shebang_restores
    (file a0 : string) (args : list string) (tl : vector)
    (envp : list string) :
  let argv := (Some <$> a0 :: args) ++ None :: None :: tl in
  execve_or_shebang execve file argv envp
  = match execve file (a0 :: args) envp with
    | None => Replaced file (a0 :: args)
    | Some e =>
        if decide (e = ENOEXEC) then
          match execve "/bin/sh" ("/bin/sh" :: file :: args) envp with
          | None => Replaced "/bin/sh" ("/bin/sh" :: file :: args)
          | Some e' => Returns (e', argv)
          end
        else Returns (e, argv)
    end.
Proof.
  cbv zeta. unfold execve_or_shebang, do_execve.
  rewrite (read_vector_terminated (a0 :: args)).
  cbn [access mbind outcome_bind].
  destruct (execve file (a0 :: args) envp) as [e|]; [|reflexivity].
  cbn [mbind outcome_bind].
  destruct (decide (e = ENOEXEC)); [|reflexivity].
  apply execve_without_shebang_spare_slot.
Qed.

Lemma last_chars_snoc (d : string) (c : ascii) :
  last (chars (d +:+ String c "")) = Some c.
Proof. rewrite chars_app. apply last_snoc. Qed.

Lemma last_chars_inv (dir : string) (c : ascii) :
  last (chars dir) = Some c → ∃ d, dir = d +:+ String c "".
Proof.
  intros Hlast. apply last_Some in Hlast as [l Hl].
  exists (unchars l).
  rewrite <- (unchars_chars dir), <- (unchars_chars (unchars l +:+ _)).
  f_equal. rewrite chars_app, Hl. unfold chars, unchars.
  rewrite list_ascii_of_string_of_list_ascii. reflexivity.
Qed.

(** X12.  For a non-empty directory that passes the length check of the
    search loop, the candidate is built: it is [dir] directly followed by
    [file] when [dir] ends in ['/'], and [dir], one ['/'] and [file] when
    it does not.  Together with its terminator the candidate fits the
    [PATH_MAX] bytes of [absolute_path]. *)
Theorem absolute_path_fits (dir file : string) :
  dir ≠ "" → (strlen file + strlen dir + 2 < PATH_MAX)%nat →
  ∃ path, absolute_path dir file = Some path
          ∧ ((∃ d, dir = d +:+ "/") → path = dir +:+ file)
          ∧ ((∀ d, dir ≠ d +:+ "/") → path = dir +:+ "/" +:+ file)
          ∧ (strlen path + 1 < PATH_MAX)%nat.
Proof.
  intros Hdir Hfits. unfold absolute_path.
  destruct (last (chars dir)) as [c|] eqn:Hlast.
  2:{ apply last_None in Hlast. destruct dir; [congruence | discriminate]. }
  cbn [mbind option_bind].
  destruct (decide (c = "/"%char)) as [->|Hc]; eexists;
    (split; [reflexivity|]).
  - split; [reflexivity|]. split.
    + intros Hno. apply last_chars_inv in Hlast as [d Hd].
      exfalso. apply (Hno d). exact Hd.
    + rewrite strlen_app. lia.
  - split; [|split; [reflexivity|]].
    + intros [d Hd]. exfalso. apply Hc.
      rewrite Hd, last_chars_snoc in Hlast. congruence.
    + rewrite !strlen_app. cbn. lia.
Qed.

Lemma search_path_all_too_long (file : string) (argv : vector)
    (envp : list string) (dirs : list string) :
  ∀ sticky,
    (∀ dir, dir ∈ dirs → (PATH_MAX ≤ strlen file + strlen dir + 2)%nat) →
    search_path execve PATH_MAX dirs file argv envp ENAMETOOLONG sticky
    = Returns (if decide (sticky ≠ 0) then sticky else ENAMETOOLONG, argv).
Proof.
  induction dirs as [|dir dirs IH]; intros sticky Hlong; [reflexivity|].
  rewrite search_path_too_long by (apply Hlong; left).
  apply IH. intros d Hd. apply Hlong. right. exact Hd.
Qed.

(** X13.  A command name so long that no candidate can fit [PATH_MAX]
    (the name, one character of directory, the slash and the terminator
    already fill it) is never executed by the search loop: on every list
    of at least one directory, none of them the empty string, the loop
    ends with ENAMETOOLONG and leaves [argv] alone, whatever [execve]
    would do. *)
Theorem search_path_name_too_long
    (file : string) (argv : vector) (envp : list string)
    (dirs : list string) (errno : Z) :
  dirs ≠ [] → Forall (λ dir, dir ≠ "") dirs →
  (PATH_MAX ≤ strlen file + 3)%nat →
  search_path execve PATH_MAX dirs file argv envp errno 0
  = Returns (ENAMETOOLONG, argv).
Proof.
  intros Hne Hdirs Hlong.
  assert (Hall : ∀ dir, dir ∈ dirs →
            (PATH_MAX ≤ strlen file + strlen dir + 2)%nat).
  { intros dir Hdir. rewrite Forall_forall in Hdirs.
    specialize (Hdirs dir Hdir). destruct dir; [congruence | cbn; lia]. }
  destruct dirs as [|dir dirs]; [congruence|].
  rewrite search_path_too_long by (apply Hall; left).
  apply (search_path_all_too_long file argv envp dirs 0).
  intros d Hd. apply Hall. right. exact Hd.
Qed.

(** X14.  The first candidate that can be executed wins: when the
    directories in front of [dir] are tried in vain and the candidate in
    [dir] is executed, the image is replaced by it, whatever the errno and
    a remembered EACCES were and whatever directories follow. *)
Theorem search_path_first_success
    (file : string) (argv : vector) (envp : list string)
    (pre : list string) (dir : string) (rest : list string)
    (p : string) (a : list string) (errno sticky : Z) :
  tried_in_vain execve PATH_MAX file argv envp pre →
  (strlen file + strlen dir + 2 < PATH_MAX)%nat →
  try_candidate execve dir file argv envp = Replaced p a →
  search_path execve PATH_MAX (pre ++ dir :: rest) file argv envp errno sticky
  = Replaced p a.
Proof.
  intros Hvain Hfits Hexec. revert errno sticky.
  induction pre as [|d pre IH]; intros errno sticky.
  - cbn [app search_path]. rewrite decide_False by lia.
    rewrite Hexec. reflexivity.
  - assert (Hrest : tried_in_vain execve PATH_MAX file argv envp pre)
      by (intros d' Hd'; apply Hvain; right; exact Hd').
    cbn [app].
    destruct (decide (PATH_MAX ≤ strlen file + strlen d + 2)%nat) as [Hlong|Hd].
    + rewrite search_path_too_long by exact Hlong. apply IH, Hrest.
    + destruct (Hvain d) as (e & Htry & He); [left | lia|].
      rewrite (search_path_try_next _ _ _ _ _ _ argv _ _ _ e)
        by (lia || assumption).
      apply IH, Hrest.
Qed.

(** No directory of [dirs] is refused with EACCES. *)
Lemma search_path_not_denied (file : string) (argv : vector)
    (envp : list string) (pre : list string) :
  tried_in_vain execve PATH_MAX file argv envp pre →
  (∀ dir, dir ∈ pre →
     try_candidate execve dir file argv envp ≠ Returns (EACCES, argv)) →
  ∀ (l : list string) (errno : Z),
    ∃ errno',
      search_path execve PATH_MAX (pre ++ l) file argv envp errno 0
      = search_path execve PATH_MAX l file argv envp errno' 0.
Proof.
  intros Hvain Hnot l.
  induction pre as [|d pre IH]; intros errno; [eauto|].
  assert (Hrest : tried_in_vain execve PATH_MAX file argv envp pre)
    by (intros d' Hd'; apply Hvain; right; exact Hd').
  assert (Hnot' : ∀ dir, dir ∈ pre →
            try_candidate execve dir file argv envp ≠ Returns (EACCES, argv))
    by (intros d' Hd'; apply Hnot; right; exact Hd').
  cbn [app].
  destruct (decide (PATH_MAX ≤ strlen file + strlen d + 2)%nat) as [Hlong|Hd].
  - rewrite search_path_too_long by exact Hlong. apply IH; assumption.
  - destruct (Hvain d) as (e & Htry & He); [left | lia|].
    rewrite (search_path_try_next _ _ _ _ _ _ argv _ _ _ e)
      by (lia || assumption).
    rewrite decide_False; [apply IH; assumption|].
    intros ->. apply (Hnot d); [left | exact Htry].
Qed.

(** X15.  When every directory has been tried in vain and none of the
    attempts was refused with EACCES, the errno left for the caller is the
    one of the last directory of the search path. *)
Theorem search_path_last_errno
    (file : string) (argv : vector) (envp : list string)
    (pre : list string) (last : string) (e errno : Z) :
  tried_in_vain execve PATH_MAX file argv envp pre →
  (∀ dir, dir ∈ pre →
     try_candidate execve dir file argv envp ≠ Returns (EACCES, argv)) →
  (strlen file + strlen last + 2 < PATH_MAX)%nat →
  try_candidate execve last file argv envp = Returns (e, argv) →
  e ∈ try_others → e ≠ EACCES →
  search_path execve PATH_MAX (pre ++ [last]) file argv envp errno 0
  = Returns (e, argv).
Proof.
  intros Hvain Hnot Hfits Htry He Hne.
  destruct (search_path_not_denied file argv envp pre Hvain Hnot [last] errno)
    as [errno' ->].
  rewrite (search_path_try_next _ _ _ _ _ _ argv _ _ _ e)
    by (lia || assumption).
  rewrite decide_False by exact Hne. cbn [search_path].
  rewrite decide_False by (intros H; apply H; reflexivity). reflexivity.
Qed.

End adapter_more.

Lemma mpp_execvpe_malloc_failure_witness :
  Resolver.effective_pathv false Sample.environ = Returns None
  ∧ Adapter.mpp_execvpe Sample.execve_any Sample.execvp_any 4096 false
      Sample.environ 0 "tool" Sample.argv (Adapter.EnvOwn [])
    = Fault.
Proof.
  apply (mpp_execvpe_malloc_failure Sample.execve_any Sample.execvp_any 4096
           Sample.environ 0 "tool" Sample.argv []);
    [discriminate | reflexivity].
Defined.

Lemma absolute_path_fits_witness :
  ∃ path, Adapter.absolute_path "/usr/bin" "tool" = Some path
          ∧ ((∃ d, "/usr/bin" = d +:+ "/") → path = "/usr/bin" +:+ "tool")
          ∧ ((∀ d, "/usr/bin" ≠ d +:+ "/")
             → path = "/usr/bin" +:+ "/" +:+ "tool")
          ∧ (Resolver.strlen path + 1 < 4096)%nat.
Proof.
  apply (absolute_path_fits 4096 "/usr/bin" "tool"); [discriminate | cbn; lia].
Defined.

Lemma search_path_name_too_long_witness :
  Adapter.search_path Sample.execve_any 12 ["."; "/bin"; "/usr/bin"]
    "a-long-name" Sample.argv [] 0 0
  = Returns (ENAMETOOLONG, Sample.argv).
Proof.
  apply (search_path_name_too_long Sample.execve_any 12 "a-long-name"
           Sample.argv [] ["."; "/bin"; "/usr/bin"] 0).
  - discriminate.
  - repeat constructor; discriminate.
  - cbn. lia.
Defined.

Lemma sample_tried_in_vain_first :
  Adapter.tried_in_vain Sample.execve_usr 4096 "tool" Sample.argv []
    ["/opt/bin"].
Proof.
  intros dir Hdir _.
  apply elem_of_cons in Hdir as [->|Hdir];
    [exists EACCES; split; [reflexivity | left] | inversion Hdir].
Defined.

Lemma search_path_first_success_witness :
  Adapter.search_path Sample.execve_usr 4096 ["/opt/bin"; "/usr/bin"; "/mnt"]
    "tool" Sample.argv [] 0 0
  = Replaced "/usr/bin/tool" ["tool"; "--version"].
Proof.
  apply (search_path_first_success Sample.execve_usr 4096 "tool" Sample.argv
           [] ["/opt/bin"] "/usr/bin" ["/mnt"] "/usr/bin/tool"
           ["tool"; "--version"] 0 0 sample_tried_in_vain_first);
    [cbn; lia | reflexivity].
Defined.

Lemma sample_tried_in_vain_mnt :
  Adapter.tried_in_vain Sample.execve 4096 "tool" Sample.argv [] ["/usr/bin"].
Proof.
  intros dir Hdir _.
  apply elem_of_cons in Hdir as [->|Hdir];
    [exists ENOENT; split; [reflexivity | right; left] | inversion Hdir].
Defined.

Lemma search_path_last_errno_witness :
  Adapter.search_path Sample.execve 4096 ["/usr/bin"; "/srv"] "tool"
    Sample.argv [] 0 0
  = Returns (ENOENT, Sample.argv).
Proof.
  apply (search_path_last_errno Sample.execve 4096 "tool" Sample.argv []
           ["/usr/bin"] "/srv" ENOENT 0 sample_tried_in_vain_mnt).
  - intros dir Hdir.
    apply elem_of_cons in Hdir as [->|Hdir]; [discriminate | inversion Hdir].
  - cbn; lia.
  - reflexivity.
  - right; left.
  - discriminate.
Defined.

(** * Further properties of the child launcher *)

Section launcher_more.

Import Resolver Adapter Sweeper Launcher.

Variable execve : string → list string → list string → option Z.
Variable execvp : string → list string → option Z.
Variable PATH_MAX : nat.
Variable malloc_ok : bool.
Variable environ : gmap string string.
Variable opendir_ok : bool.
Variable open_max : Z.
Variable chdir : string → Z.
Variable FD_INVALID : Z.

Abbreviation child_proc :=
  (child_proc execve execvp PATH_MAX malloc_ok environ opendir_ok open_max
     chdir).
Abbreviation create_process_impl :=
  (create_process_impl execve execvp PATH_MAX malloc_ok environ opendir_ok
     open_max chdir FD_INVALID).


(** X17.  A command line whose first word is the empty string makes the
    child leave with exit status 1 once the working directory is changed:
    nothing is executed, whatever [execve] and [execvp] would do. *)
Theorem child_proc_empty_name
    (startup : process_startup) (args : list string)
    (pstdin pstdout pstderr : pipe) (open : gset Z) (errno : Z) :
  _cmdline startup = "" :: args →
  chdir (_cwd startup) = 0 →
  ending (child_proc startup pstdin pstdout pstderr open errno) = Exited 1.
Proof.
  intros Hcmd Hchdir.
  unfold Launcher.child_proc. cbn [ending].
  rewrite decide_False by (intros H; apply H; exact Hchdir).
  unfold child_argv. rewrite Hcmd. reflexivity.
Qed.

(** X18.  With an empty command line [argv[0]] is the terminating
    [nullptr], and [mpp_execvpe] reads the file name through it: the child
    stops on an invalid access. *)
Theorem child_proc_empty_cmdline
    (startup : process_startup)
    (pstdin pstdout pstderr : pipe) (open : gset Z) (errno : Z) :
  _cmdline startup = [] →
  chdir (_cwd startup) = 0 →
  child_argv startup = [None]
  ∧ ending (child_proc startup pstdin pstdout pstderr open errno) = Fault.
Proof.
  intros Hcmd Hchdir.
  unfold Launcher.child_proc. cbn [ending].
  rewrite decide_False by (intros H; apply H; exact Hchdir).
  unfold child_argv. rewrite Hcmd. split; reflexivity.
Qed.

Lemma mem_close (open : gset Z) (fd x : Z) :
  fd ∈ open → fd ≠ x → fd ∈ run_call open (Close_fd x).
Proof.
  intros Hin Hne. cbn [run_call]. unfold close.
  apply elem_of_difference. split; [exact Hin|].
  intros Hx%elem_of_singleton. contradiction.
Qed.

Lemma mem_dup_new (open : gset Z) (oldfd newfd : Z) :
  oldfd ∈ open → newfd ∈ run_call open (Dup2 oldfd newfd).
Proof.
  intros Hin. cbn [run_call]. unfold dup2_ok.
  rewrite bool_decide_eq_true_2 by exact Hin.
  apply elem_of_union. left. apply elem_of_singleton. reflexivity.
Qed.

Lemma mem_dup_old (open : gset Z) (fd oldfd newfd : Z) :
  fd ∈ open → fd ∈ run_call open (Dup2 oldfd newfd).
Proof.
  intros Hin. cbn [run_call]. destruct (dup2_ok oldfd open); [|exact Hin].
  apply elem_of_union. right. exact Hin.
Qed.

Lemma mem_when_close (open : gset Z) (b : bool) (fd x : Z) :
  fd ∈ open → fd ≠ x → fd ∈ foldl run_call open (when b [Close_fd x]).
Proof.
  intros Hin Hne. destruct b; cbn [when foldl]; [|exact Hin].
  apply mem_close; assumption.
Qed.

(** A descriptor is shown to be open after a sequence of calls by going
    through the calls backwards. *)
Ltac still_open :=
  repeat first
    [ assumption
    | apply mem_dup_new
    | apply mem_dup_old
    | apply mem_close; [|congruence]
    | apply mem_when_close; [|congruence] ].

(** After the redirection calls the three standard descriptors are
    open. *)
Lemma child_pipes_standard_open
    (startup : process_startup) (pstdin pstdout pstderr : pipe)
    (open : gset Z) :
  NoDup [pstdin PIPE_READ; pstdin PIPE_WRITE; pstdout PIPE_READ;
         pstdout PIPE_WRITE; pstderr PIPE_READ; pstderr PIPE_WRITE] →
  Forall (λ fd, 2 < fd)
    [pstdin PIPE_READ; pstdin PIPE_WRITE; pstdout PIPE_READ;
     pstdout PIPE_WRITE; pstderr PIPE_READ; pstderr PIPE_WRITE] →
  pstdin PIPE_READ ∈ open → pstdout PIPE_WRITE ∈ open →
  pstderr PIPE_WRITE ∈ open →
  let table := foldl run_call open
                 (child_pipes startup pstdin pstdout pstderr) in
  0 ∈ table ∧ 1 ∈ table ∧ 2 ∈ table.
Proof.
  intros Hnd Hstd Hir How Hew. cbv zeta. unfold child_pipes.
  set (ir := pstdin PIPE_READ) in *. set (iw := pstdin PIPE_WRITE) in *.
  set (or := pstdout PIPE_READ) in *. set (ow := pstdout PIPE_WRITE) in *.
  set (er := pstderr PIPE_READ) in *. set (ew := pstderr PIPE_WRITE) in *.
  clearbody ir iw or ow er ew.
  assert (Hne : ir ≠ iw ∧ ir ≠ or ∧ ir ≠ ow ∧ ir ≠ er ∧ ir ≠ ew
                ∧ iw ≠ or ∧ iw ≠ ow ∧ iw ≠ er ∧ iw ≠ ew
                ∧ or ≠ ow ∧ or ≠ er ∧ or ≠ ew
                ∧ ow ≠ er ∧ ow ≠ ew ∧ er ≠ ew).
  { repeat (apply NoDup_cons in Hnd as [? Hnd]).
    repeat match goal with
           | H : _ ∉ _ :: _ |- _ => apply not_elem_of_cons in H as [? ?]
           end.
    repeat split; assumption. }
  clear Hnd. destruct Hne as (?&?&?&?&?&?&?&?&?&?&?&?&?&?&?).
  assert (Hlow : 2 < ir ∧ 2 < ow ∧ 2 < er ∧ 2 < ew).
  { repeat (apply Forall_cons in Hstd as [? Hstd]). auto. }
  clear Hstd. destruct Hlow as (Hlir & Hlow & Hler & Hlew).
  assert (0 ≠ ir ∧ 1 ≠ ir ∧ 2 ≠ ir) as (?&?&?) by (clear -Hlir; lia).
  assert (0 ≠ ow ∧ 1 ≠ ow ∧ 2 ≠ ow) as (?&?&?) by (clear -Hlow; lia).
  assert (0 ≠ er ∧ 1 ≠ er ∧ 2 ≠ er) as (?&?&?) by (clear -Hler; lia).
  assert (0 ≠ ew ∧ 1 ≠ ew ∧ 2 ≠ ew) as (?&?&?) by (clear -Hlew; lia).
  unfold STDIN_FILENO, STDOUT_FILENO, STDERR_FILENO.
  destruct (merge_outputs startup);
    rewrite !foldl_app; cbn [foldl]; repeat split; still_open.
Qed.

(** X19.  In a child whose six pipe ends are distinct open descriptors
    above 2, the program that is started finds descriptors 0, 1 and 2
    open, for every combination of the redirection and merge flags; any
    other descriptor still open after the sweep is descriptor 3, or, when
    the sweep had to fall back on its loop, one at or above
    [sysconf(_SC_OPEN_MAX)]. *)
Theorem child_proc_descriptors
    (startup : process_startup) (pstdin pstdout pstderr : pipe)
    (open : gset Z) (errno : Z) :
  NoDup [pstdin PIPE_READ; pstdin PIPE_WRITE; pstdout PIPE_READ;
         pstdout PIPE_WRITE; pstderr PIPE_READ; pstderr PIPE_WRITE] →
  Forall (λ fd, 2 < fd)
    [pstdin PIPE_READ; pstdin PIPE_WRITE; pstdout PIPE_READ;
     pstdout PIPE_WRITE; pstderr PIPE_READ; pstderr PIPE_WRITE] →
  pstdin PIPE_READ ∈ open → pstdout PIPE_WRITE ∈ open →
  pstderr PIPE_WRITE ∈ open →
  let r := child_proc startup pstdin pstdout pstderr open errno in
  0 ∈ descriptors r ∧ 1 ∈ descriptors r ∧ 2 ∈ descriptors r
  ∧ ∀ fd, fd ∈ descriptors r →
      fd ≤ 3 ∨ (opendir_ok = false ∧ open_max ≤ fd).
Proof.
  intros Hnd Hstd Hir How Hew. cbv zeta.
  unfold Launcher.child_proc. cbn [descriptors].
  destruct (child_pipes_standard_open startup pstdin pstdout pstderr open
              Hnd Hstd Hir How Hew) as (H0 & H1 & H2).
  rewrite !sweep_members. unfold FAIL_FILENO, STDERR_FILENO.
  repeat split; try assumption; try (left; lia).
  intros fd Hfd. apply sweep_members in Hfd as [_ [Hle|(Hok & _ & Hmax)]].
  - left. unfold FAIL_FILENO, STDERR_FILENO in Hle. lia.
  - right. auto.
Qed.

Lemma pipe_ends_distinct (ir iw or ow er ew : Z) :
  NoDup [ir; iw; or; ow; er; ew] →
  ir ≠ iw ∧ ir ≠ or ∧ ir ≠ ow ∧ ir ≠ er ∧ ir ≠ ew
  ∧ iw ≠ or ∧ iw ≠ ow ∧ iw ≠ er ∧ iw ≠ ew
  ∧ or ≠ ow ∧ or ≠ er ∧ or ≠ ew
  ∧ ow ≠ er ∧ ow ≠ ew ∧ er ≠ ew.
Proof.
  intros Hnd.
  repeat (apply NoDup_cons in Hnd as [? Hnd]).
  repeat match goal with
         | H : _ ∉ _ :: _ |- _ => apply not_elem_of_cons in H as [? ?]
         end.
  repeat split; assumption.
Qed.

(** X20.  In the parent, where [fork] returned the positive pid of the
    child, [create_process_impl] fills the handle with that pid, leaves
    the thread identifier at [FD_INVALID], and hands out the write end of
    stdin and the read ends of stdout and stderr; when the six pipe ends
    are distinct, none of the three has been closed by the parent's own
    calls, whatever the redirection and merge flags. *)
Theorem create_process_impl_parent
    (pid : Z) (startup : process_startup) (i : info.process_info)
    (pstdin pstdout pstderr : pipe) (open : gset Z) (errno : Z) :
  0 < pid →
  NoDup [pstdin PIPE_READ; pstdin PIPE_WRITE; pstdout PIPE_READ;
         pstdout PIPE_WRITE; pstderr PIPE_READ; pstderr PIPE_WRITE] →
  pstdin PIPE_WRITE ∈ open → pstdout PIPE_READ ∈ open →
  pstderr PIPE_READ ∈ open →
  let r := create_process_impl pid startup i pstdin pstdout pstderr open
             errno in
  let table := foldl run_call open r.1 in
  r.2 = Returns (info.ProcessInfo pid FD_INVALID (pstdin PIPE_WRITE)
                   (pstdout PIPE_READ) (pstderr PIPE_READ))
  ∧ pstdin PIPE_WRITE ∈ table
  ∧ pstdout PIPE_READ ∈ table
  ∧ pstderr PIPE_READ ∈ table.
Proof.
  intros Hpid Hnd Hiw Hor Her. cbv zeta.
  unfold Launcher.create_process_impl.
  rewrite decide_False by lia. rewrite decide_False by lia.
  cbn [fst snd]. split; [reflexivity|].
  apply pipe_ends_distinct in Hnd.
  destruct Hnd as (?&?&?&?&?&?&?&?&?&?&?&?&?&?&?).
  unfold parent_pipes.
  destruct (merge_outputs startup);
    rewrite !foldl_app; cbn [foldl]; repeat split; still_open.
Qed.

(** X21.  Over the life of a handle, from [create_process_impl] in the
    parent to [close_process], the parent closes no pipe end twice when
    the six ends are distinct: the ends it hands out are closed once, by
    [close_process]; the read end of stdin and the write end of stdout are
    closed once unless the stream is redirected; the write end of stderr
    is closed once unless stderr is redirected or merged into stdout, in
    which cases the parent never closes it. *)
Theorem parent_closes_over_lifetime
    (pid : Z) (startup : process_startup) (i : info.process_info)
    (pstdin pstdout pstderr : pipe) (open : gset Z) (errno : Z) :
  0 < pid →
  NoDup [pstdin PIPE_READ; pstdin PIPE_WRITE; pstdout PIPE_READ;
         pstdout PIPE_WRITE; pstderr PIPE_READ; pstderr PIPE_WRITE] →
  let r := create_process_impl pid startup i pstdin pstdout pstderr open
             errno in
  ∃ handle,
    r.2 = Returns handle
    ∧ let total := times_closed (r.1 ++ close_process handle) in
      total (pstdin PIPE_READ) = Nat.b2n (negb (redirected (_stdin startup)))
      ∧ total (pstdin PIPE_WRITE) = 1%nat
      ∧ total (pstdout PIPE_READ) = 1%nat
      ∧ total (pstdout PIPE_WRITE)
        = Nat.b2n (negb (redirected (_stdout startup)))
      ∧ total (pstderr PIPE_READ) = 1%nat
      ∧ total (pstderr PIPE_WRITE)
        = Nat.b2n (negb (merge_outputs startup)
                   && negb (redirected (_stderr startup)))%bool.
Proof.
  intros Hpid Hnd. cbv zeta.
  unfold Launcher.create_process_impl.
  rewrite decide_False by lia. rewrite decide_False by lia.
  cbn [fst snd]. eexists. split; [reflexivity|].
  unfold close_process, times_closed, parent_pipes.
  cbn [info._stdin info._stdout info._stderr].
  apply pipe_ends_distinct in Hnd.
  set (ir := pstdin PIPE_READ) in *. set (iw := pstdin PIPE_WRITE) in *.
  set (or := pstdout PIPE_READ) in *. set (ow := pstdout PIPE_WRITE) in *.
  set (er := pstderr PIPE_READ) in *. set (ew := pstderr PIPE_WRITE) in *.
  clearbody ir iw or ow er ew.
  destruct Hnd as (?&?&?&?&?&?&?&?&?&?&?&?&?&?&?).
  destruct startup as [cmdline env cwd [rin] [rout] [rerr] merge].
  cbn [_stdin _stdout _stderr merge_outputs redirected].
  destruct rin, rout, rerr, merge;
    cbn [negb andb when app closed_fds omap list_omap Nat.b2n];
    repeat split;
    repeat first [ rewrite filter_cons_True by reflexivity
                 | rewrite filter_cons_False by congruence ];
    reflexivity.
Qed.

(** [child_proc] never comes back with an ordinary return. *)
Lemma child_proc_no_return
    (startup : process_startup) (pstdin pstdout pstderr : pipe)
    (open : gset Z) (errno : Z) (u : ()) :
  ending (child_proc startup pstdin pstdout pstderr open errno) ≠ Returns u.
Proof.
  unfold Launcher.child_proc. cbn [ending].
  destruct (decide (chdir (_cwd startup) ≠ 0)); [discriminate|].
  destruct (mjoin (child_argv startup !! 0%nat)) as [file|];
    cbn [access mbind outcome_bind]; [|discriminate].
  pose proof (plain_mpp_execvpe execve execvp PATH_MAX malloc_ok environ
                errno file (child_argv startup)
                (EnvOwn (child_envp startup))) as Hplain.
  destruct (mpp_execvpe _ _ _ _ _ _ _ _ _) as [[e a]| | | |];
    cbn [mbind outcome_bind plain] in *; discriminate.
Qed.

(** X22.  [create_process_impl] returns a handle exactly in the parent,
    that is where [fork] returned a positive pid: after a failed [fork] it
    raises [runtime_error] without touching a descriptor, and in the child
    it never returns, whatever happens to the redirection, the working
    directory and the program. *)
Theorem create_process_impl_returns_in_parent
    (pid : Z) (startup : process_startup) (i : info.process_info)
    (pstdin pstdout pstderr : pipe) (open : gset Z) (errno : Z) :
  let r := create_process_impl pid startup i pstdin pstdout pstderr open
             errno in
  ((∃ handle, r.2 = Returns handle) ↔ 0 < pid)
  ∧ (pid < 0 → r = ([], Throws "unable to fork subprocess")).
Proof.
  cbv zeta. unfold Launcher.create_process_impl.
  destruct (decide (pid < 0)) as [Hneg|Hnneg]; cbn [fst snd].
  - split; [|reflexivity]. split; [intros [h Hh]; discriminate | lia].
  - split; [|lia]. destruct (decide (pid = 0)) as [->|Hpos]; cbn [fst snd].
    + split; [|lia]. intros [h Hh].
      pose proof (child_proc_no_return startup pstdin pstdout pstderr open
                    errno) as Hno.
      destruct (ending _) as [[]| | | |]; cbn [mbind outcome_bind] in Hh;
        try discriminate.
      exfalso. apply (Hno ()). reflexivity.
    + split; [lia|]. intros _. eexists. reflexivity.
Qed.

End launcher_more.


Lemma child_proc_empty_name_witness :
  Launcher.ending
    (Launcher.child_proc Sample.execve_any Sample.execvp_any 4096 true
       Sample.environ true 1024 (λ _, 0) Sample.startup_empty_name
       (Launcher.mk_pipe 10 11) (Launcher.mk_pipe 12 13)
       (Launcher.mk_pipe 14 15) Sample.open 0)
  = Exited 1.
Proof.
  apply (child_proc_empty_name Sample.execve_any Sample.execvp_any 4096 true
           Sample.environ true 1024 (λ _, 0) Sample.startup_empty_name
           ["--version"]); reflexivity.
Defined.

Lemma child_proc_empty_cmdline_witness :
  Launcher.child_argv Sample.startup_empty = [None]
  ∧ Launcher.ending
      (Launcher.child_proc Sample.execve_any Sample.execvp_any 4096 true
         Sample.environ true 1024 (λ _, 0) Sample.startup_empty
         (Launcher.mk_pipe 10 11) (Launcher.mk_pipe 12 13)
         (Launcher.mk_pipe 14 15) Sample.open 0)
    = Fault.
Proof.
  apply (child_proc_empty_cmdline Sample.execve_any Sample.execvp_any 4096
           true Sample.environ true 1024 (λ _, 0) Sample.startup_empty);
    reflexivity.
Defined.

Lemma sample_pipes_distinct : NoDup [10; 11; 12; 13; 14; 15].
Proof. apply (bool_decide_unpack _). vm_compute. exact I. Defined.

Lemma sample_pipes_above_standard :
  Forall (λ fd, 2 < fd) [10; 11; 12; 13; 14; 15].
Proof. repeat constructor. Defined.

Lemma sample_open (fd : Z) :
  bool_decide (fd ∈ [0; 1; 2; 7; 10; 11; 12; 13; 14; 15]) = true →
  fd ∈ Sample.open.
Proof.
  intros H. apply elem_of_list_to_set. apply (bool_decide_unpack _).
  rewrite H. exact I.
Defined.

Lemma child_proc_descriptors_witness :
  let r :=
    Launcher.child_proc Sample.execve_any Sample.execvp_any 4096 true
      Sample.environ false 1024 (λ _, 0) Sample.startup
      (Launcher.mk_pipe 10 11) (Launcher.mk_pipe 12 13)
      (Launcher.mk_pipe 14 15) Sample.open 0 in
  0 ∈ Launcher.descriptors r ∧ 1 ∈ Launcher.descriptors r
  ∧ 2 ∈ Launcher.descriptors r
  ∧ ∀ fd, fd ∈ Launcher.descriptors r → fd ≤ 3 ∨ (false = false ∧ 1024 ≤ fd).
Proof.
  apply (child_proc_descriptors Sample.execve_any Sample.execvp_any 4096 true
           Sample.environ false 1024 (λ _, 0) Sample.startup
           (Launcher.mk_pipe 10 11) (Launcher.mk_pipe 12 13)
           (Launcher.mk_pipe 14 15) Sample.open 0
           sample_pipes_distinct sample_pipes_above_standard);
    apply sample_open; reflexivity.
Defined.

Lemma create_process_impl_parent_witness :
  let r :=
    Launcher.create_process_impl Sample.execve_any Sample.execvp_any 4096
      true Sample.environ true 1024 (λ _, 0) (-1) 4242 Sample.startup
      (Launcher.info.ProcessInfo 0 0 0 0 0)
      (Launcher.mk_pipe 10 11) (Launcher.mk_pipe 12 13)
      (Launcher.mk_pipe 14 15) Sample.open 0 in
  let table := foldl Launcher.run_call Sample.open r.1 in
  r.2 = Returns (Launcher.info.ProcessInfo 4242 (-1) 11 12 14)
  ∧ 11 ∈ table ∧ 12 ∈ table ∧ 14 ∈ table.
Proof.
  apply (create_process_impl_parent Sample.execve_any Sample.execvp_any 4096
           true Sample.environ true 1024 (λ _, 0) (-1) 4242 Sample.startup
           (Launcher.info.ProcessInfo 0 0 0 0 0)
           (Launcher.mk_pipe 10 11) (Launcher.mk_pipe 12 13)
           (Launcher.mk_pipe 14 15) Sample.open 0 ltac:(lia)
           sample_pipes_distinct);
    apply sample_open; reflexivity.
Defined.

Lemma parent_closes_over_lifetime_witness :
  let r :=
    Launcher.create_process_impl Sample.execve_any Sample.execvp_any 4096
      true Sample.environ true 1024 (λ _, 0) (-1) 4242 Sample.startup
      (Launcher.info.ProcessInfo 0 0 0 0 0)
      (Launcher.mk_pipe 10 11) (Launcher.mk_pipe 12 13)
      (Launcher.mk_pipe 14 15) Sample.open 0 in
  ∃ handle,
    r.2 = Returns handle
    ∧ let total :=
        Launcher.times_closed (r.1 ++ Launcher.close_process handle) in
      total 10 = 1%nat ∧ total 11 = 1%nat ∧ total 12 = 1%nat
      ∧ total 13 = 1%nat ∧ total 14 = 1%nat ∧ total 15 = 1%nat.
Proof.
  apply (parent_closes_over_lifetime Sample.execve_any Sample.execvp_any 4096
           true Sample.environ true 1024 (λ _, 0) (-1) 4242 Sample.startup
           (Launcher.info.ProcessInfo 0 0 0 0 0)
           (Launcher.mk_pipe 10 11) (Launcher.mk_pipe 12 13)
           (Launcher.mk_pipe 14 15) Sample.open 0 ltac:(lia)
           sample_pipes_distinct).
Defined.

Lemma create_process_impl_returns_in_parent_witness :
  let r :=
    Launcher.create_process_impl Sample.execve_any Sample.execvp_any 4096
      true Sample.environ true 1024 (λ _, 0) (-1) (-1) Sample.startup
      (Launcher.info.ProcessInfo 0 0 0 0 0)
      (Launcher.mk_pipe 10 11) (Launcher.mk_pipe 12 13)
      (Launcher.mk_pipe 14 15) Sample.open 0 in
  r = ([], Throws "unable to fork subprocess").
Proof.
  refine (proj2 (create_process_impl_returns_in_parent Sample.execve_any
                   Sample.execvp_any 4096 true Sample.environ true 1024
                   (λ _, 0) (-1) (-1) Sample.startup
                   (Launcher.info.ProcessInfo 0 0 0 0 0)
                   (Launcher.mk_pipe 10 11) (Launcher.mk_pipe 12 13)
                   (Launcher.mk_pipe 14 15) Sample.open 0) _).
  lia.
Defined.
